(** * cyipopt.scipy_interface

    A shallow embedding of [src/cyipopt/scipy_interface.py]: the adapter that
    presents a SciPy-style problem (objective, gradient, constraint dicts) to
    the Ipopt callback protocol, the structure builders that probe the
    constraints at the initial point, the option translation and the driver
    [minimize_ipopt].

    Conventions of the embedding.
    - A NumPy float64 is a primitive binary64 [float]; a 1-D array is a
      [list float], a 2-D array a list of rows.  A constraint function that
      returns a bare scalar is represented by the one-element array that
      [np.atleast_1d] and [np.hstack] make of it.
    - A Python callable invoked as [f(x, *args, **kwargs)] is a total function
      of [x], the positional tail and the keyword dictionary.  Exceptions
      raised inside a caller's own function are not modelled.
    - A function that can raise returns a [result]; loops that raise midway
      are folds in that monad.
    - SciPy's [approx_fprime], [MemoizeJac] and [minimize], and the native
      solver handle [cyipopt.Problem], are collaborators whose code is not in
      this module: they are fields of the classes [SciPy] and [Cyipopt]. *)

From Stdlib Require Import String Ascii.
From Stdlib Require Import ZArith Lia Bool Arith PeanoNat List.
From Stdlib Require Import PrimFloat.
Import ListNotations.
Set Warnings "-inexact-float".
Set Implicit Arguments.
Local Open Scope string_scope.
Local Open Scope list_scope.

(** ** Exceptions and the error monad *)

Inductive exn : Type :=
| ImportError (msg : string)
| NotImplementedError (msg : string)
| ValueError (msg : string)
| TypeError (msg : string)
| IndexError (msg : string)
| OtherError (name msg : string).

Inductive result (A : Type) : Type :=
| Ok (a : A)
| Raise (e : exn).

Arguments Ok {A} a.
Arguments Raise {A} e.

Definition bind {A B : Type} (r : result A) (k : A -> result B) : result B :=
  match r with
  | Ok a => k a
  | Raise e => Raise e
  end.

Notation "x <- e ;; k" := (bind e (fun x => k))
  (at level 61, e at next level, right associativity).

Definition fmap {A B : Type} (f : A -> B) (r : result A) : result B :=
  x <- r ;; Ok (f x).

(** A [for] loop that collects one value per item and stops at the first
    exception. *)
Fixpoint traverse {A B : Type} (f : A -> result B) (l : list A) : result (list B) :=
  match l with
  | [] => Ok []
  | a :: l' => b <- f a ;; bs <- traverse f l' ;; Ok (b :: bs)
  end.

(** A [for] loop that threads an accumulator and stops at the first
    exception. *)
Fixpoint foldM {A S : Type} (f : S -> A -> result S) (l : list A) (s : S) : result S :=
  match l with
  | [] => Ok s
  | a :: l' => s' <- f s a ;; foldM f l' s'
  end.

(** Python's [zip] of three and of four sequences (the shortest one decides). *)
Definition zip3 {A B C : Type} (a : list A) (b : list B) (c : list C) : list (A * B * C) :=
  combine (combine a b) c.

Definition zip4 {A B C D : Type} (a : list A) (b : list B) (c : list C) (d : list D)
  : list (A * B * C * D) :=
  combine (zip3 a b c) d.

Definition enumerate {A : Type} (l : list A) : list (nat * A) :=
  combine (seq 0 (length l)) l.

Definition sum (l : list nat) : nat := fold_right Nat.add 0 l.

(** ** The NumPy operations the module uses *)

Definition vec : Type := list float.
Definition mat : Type := list vec.

Inductive ndarray : Type :=
| A0 (s : float)
| A1 (v : vec)
| A2 (m : mat).

Definition zeros (n : nat) : vec := repeat 0%float n.
Definition ones (n : nat) : vec := repeat 1%float n.

(** [a * v] for a Python float [a] and an array [v]. *)
Definition scale (a : float) (v : vec) : vec := map (PrimFloat.mul a) v.
Definition scale2 (a : float) (m : mat) : mat := map (scale a) m.

Definition atleast_2d (a : ndarray) : mat :=
  match a with
  | A0 s => [[s]]
  | A1 v => [v]
  | A2 m => m
  end.

(** [ndarray.ravel()] of a 2-D array: the rows one after the other. *)
Definition ravel (m : mat) : vec := concat m.

Definition shape (m : mat) : nat * nat := (length m, length (hd [] m)).

(** [np.hstack] of 1-D arrays joins them end to end; NumPy refuses an empty
    sequence. *)
Definition hstack (arrs : list vec) : result vec :=
  match arrs with
  | [] => Raise (ValueError "need at least one array to concatenate")
  | _ => Ok (concat arrs)
  end.

(** [np.cumsum]. *)
Fixpoint cumsum_from (acc : nat) (l : list nat) : list nat :=
  match l with
  | [] => []
  | d :: l' => (acc + d) :: cumsum_from (acc + d) l'
  end.

Definition cumsum (l : list nat) : list nat := cumsum_from 0 l.

(** The Python slice [l[a:b]]. *)
Definition slice {A : Type} (a b : nat) (l : list A) : list A :=
  firstn (b - a) (skipn a l).

(** [np.split(l, indices)]: the pieces between consecutive division points
    [0, indices..., len(l)]. *)
Fixpoint split_from {A : Type} (prev : nat) (indices : list nat) (l : list A) : list (list A) :=
  match indices with
  | [] => [skipn prev l]
  | i :: rest => slice prev i l :: split_from i rest l
  end.

Definition split {A : Type} (l : list A) (indices : list nat) : list (list A) :=
  split_from 0 indices l.

(** [np.tril_indices(n)]: the positions on and below the diagonal, row by
    row. *)
Definition tril_indices (n : nat) : list (nat * nat) :=
  flat_map (fun i => map (fun j => (i, j)) (seq 0 (S i))) (seq 0 n).

Definition item (H : mat) (ij : nat * nat) : result float :=
  match nth_error H (fst ij) with
  | Some r =>
      match nth_error r (snd ij) with
      | Some a => Ok a
      | None => Raise (IndexError "index out of bounds for axis 1")
      end
  | None => Raise (IndexError "index out of bounds for axis 0")
  end.

(** [H[rows, cols]] for a pair of index arrays. *)
Definition take (H : mat) (idx : list (nat * nat)) : result vec :=
  traverse (item H) idx.

(** [H += G] on arrays of one shape.  NumPy would broadcast a smaller [G];
    Hessians are square of one size, so unequal shapes are reported as the
    error NumPy gives when broadcasting is impossible. *)
Fixpoint vec_iadd (u v : vec) : result vec :=
  match u, v with
  | [], [] => Ok []
  | a :: u', b :: v' => w <- vec_iadd u' v' ;; Ok (PrimFloat.add a b :: w)
  | _, _ => Raise (ValueError "operands could not be broadcast together")
  end.

Fixpoint iadd (H G : mat) : result mat :=
  match H, G with
  | [], [] => Ok []
  | r :: H', s :: G' => t <- vec_iadd r s ;; K <- iadd H' G' ;; Ok (t :: K)
  | _, _ => Raise (ValueError "operands could not be broadcast together")
  end.

(** ** SciPy's COO sparse arrays *)

Record coo : Type := Coo {
  coo_shape : nat * nat;
  coo_row : list nat;
  coo_col : list nat;
  coo_data : vec
}.

(** The value a Jacobian callable returns: a dense array or a [coo_array]. *)
Inductive jacval : Type :=
| Dense (a : ndarray)
| Sparse (c : coo).

(** [coo_array(np.ones((r, c)))]: every entry of the block, in row-major
    order. *)
Definition coo_ones (r c : nat) : coo :=
  {| coo_shape := (r, c);
     coo_row := flat_map (fun i => repeat i c) (seq 0 r);
     coo_col := concat (repeat (seq 0 c) r);
     coo_data := ones (r * c) |}.

(** [scipy.sparse.vstack]: the blocks one under the other; the stored entries
    of each block keep their order and their rows are shifted by the rows
    above.  All blocks must have the same number of columns. *)
Fixpoint vstack_from (off ncols : nat) (blocks : list coo) : result (list nat * list nat * vec * nat) :=
  match blocks with
  | [] => Ok ([], [], [], off)
  | b :: rest =>
      if Nat.eqb (snd (coo_shape b)) ncols then
        r <- vstack_from (off + fst (coo_shape b)) ncols rest ;;
        let '(rows, cols, dat, total) := r in
        Ok (map (Nat.add off) (coo_row b) ++ rows, coo_col b ++ cols, coo_data b ++ dat, total)
      else Raise (ValueError "incompatible column dimensions")
  end.

Definition vstack (blocks : list coo) : result coo :=
  match blocks with
  | [] => Raise (ValueError "blocks must be 2-D")
  | b :: _ =>
      let ncols := snd (coo_shape b) in
      r <- vstack_from 0 ncols blocks ;;
      let '(rows, cols, dat, total) := r in
      Ok {| coo_shape := (total, ncols); coo_row := rows; coo_col := cols; coo_data := dat |}
  end.

(** ** Module state *)

(** The import of SciPy at module load (lines 15-40).  The embedding is of the
    module as loaded with SciPy present: every function below uses names that
    are bound only on that branch. *)
Definition SCIPY_INSTALLED : bool := true.

(** ** The problem specification *)

(** The ['jac'] entry next to a function that returns values only: left out
    or [None], the boolean [False], a callable, or some other object that is
    not callable (with its truth value).  [Conv] is the calling convention of
    the callables. *)
Inductive jac_entry (Conv : Type -> Type) (J : Type) : Type :=
| JacNone
| JacFalse
| JacCallable (j : Conv J)
| JacOther (truthy : bool).

Arguments JacNone {Conv J}.
Arguments JacFalse {Conv J}.
Arguments JacCallable {Conv J} j.
Arguments JacOther {Conv J} truthy.

(** A function with its ['jac'] entry.  The entry [True] announces that the
    function returns the pair (value, derivative): the two travel together
    as [Combined]. *)
Inductive fun_jac (Conv : Type -> Type) (V J : Type) : Type :=
| Separate (f : Conv V) (jac : jac_entry Conv J)
| Combined (fg : Conv (V * J)%type).

Arguments Separate {Conv V J} f jac.
Arguments Combined {Conv V J} fg.

Section Model.

Variable Val : Type.

(** Extra positional arguments ([args]) and keyword arguments ([kwargs]); an
    entry that a dict leaves out is the empty sequence or dict that
    [con.get] supplies for it. *)
Definition Args : Type := list Val.
Definition Kwargs : Type := list (string * Val).

(** A callable invoked as [f(x, *args, **kwargs)]. *)
Definition Callable (T : Type) : Type := vec -> Args -> Kwargs -> T.

(** A constraint Hessian, invoked as [hess(x, lagr, *args, **kwargs)]. *)
Definition ConHess : Type := vec -> vec -> Args -> Kwargs -> mat.

(** A function as [minimize] calls it, [f(x, *args)]. *)
Definition Positional (T : Type) : Type := vec -> Args -> T.

(** The Hessian-vector product, invoked as [hessp(x, p, *args, **kwargs)]:
    its positional tail is [p] with the extra arguments. *)
Definition Hessp : Type := vec -> vec * Args -> Kwargs -> vec.

(** A constraint dict. *)
Record constraint : Type := Constraint {
  con_fun_jac : fun_jac Callable vec jacval;
  con_type : string;
  con_args : Args;
  con_kwargs : Kwargs;
  con_hess : option ConHess
}.

(** The [constraints] argument: one dict, or a sequence of dicts. *)
Inductive constraints_arg : Type :=
| Dict (c : constraint)
| Tuple (cs : list constraint).

(** [if isinstance(constraints, dict): constraints = (constraints, )]. *)
Definition as_tuple (constraints : constraints_arg) : list constraint :=
  match constraints with
  | Dict c => [c]
  | Tuple cs => cs
  end.

(** ** SciPy collaborators *)

Class SciPy : Type := {
  (** [approx_fprime(xk, f, epsilon, *args, **kwargs)]; it calls
      [f(x, *args)]. *)
  approx_fprime :
    vec -> (vec -> Args -> result ndarray) -> float -> Args -> Kwargs -> result ndarray;
  (** [MemoizeJac(fun)] called as a function, and its [derivative] method. *)
  MemoizeJac_call : forall V J : Type, Callable (V * J) -> Callable (result V);
  MemoizeJac_derivative : forall V J : Type, Callable (V * J) -> Callable (result J)
}.

Context {scipy : SciPy}.

(** ** IpoptProblemWrapper *)

(** A stored constraint Jacobian: the [lambda] of lines 146-147, which reads
    the variables [con_fun] and [eps] of the frame of [__init__] when it is
    called, or a callable that stands on its own. *)
Inductive con_jac_closure : Type :=
| Jac_lambda
| Jac_callable (j : Callable (result jacval)).

Record IpoptProblemWrapper : Type := Wrapper {
  obj_hess : option (Callable mat);
  self_fun : Callable (result float);
  self_jac : Callable (result ndarray);
  self_args : Args;
  self_kwargs : Kwargs;
  _constraint_funs : list (Callable (result vec));
  _constraint_jacs : list con_jac_closure;
  _constraint_hessians : list (option ConHess);
  _constraint_dims : list nat;
  _constraint_args : list Args;
  _constraint_kwargs : list Kwargs;
  _constraint_jac_is_sparse : list bool;
  _constraint_jacobian_structure : list nat * list nat;
  nfev : nat;
  njev : nat;
  nit : Z;
  (** The frame of [__init__] that the lambdas close over: the last binding
      of the loop variable [con_fun], and [eps]. *)
  closure_con_fun : option (Callable (result vec));
  closure_eps : float
}.

Definition msg_hessp : string :=
  "Using hessian matrix times an arbitrary vector is not yet implemented!".
Definition msg_jac : string := "jac has to be bool or a function".
Definition msg_hess : string :=
  "hessian has to be provided for the objective and all constraints".

(** Lines 115-126: the objective and its gradient callable. *)
Definition resolve_objective (fun_ : fun_jac Callable float vec) (eps : float)
  : result (Callable (result float) * Callable (result ndarray)) :=
  match fun_ with
  | Separate f JacNone =>
      Ok (fun x a k => Ok (f x a k),
          fun x a k => approx_fprime x (fun x' _ => Ok (A0 (f x' a k))) eps [] [])
  | Combined fg =>
      Ok (MemoizeJac_call fg,
          fun x a k => fmap A1 (MemoizeJac_derivative fg x a k))
  | Separate f (JacCallable j) =>
      Ok (fun x a k => Ok (f x a k), fun x a k => Ok (A1 (j x a k)))
  | Separate f _ => Raise (NotImplementedError msg_jac)
  end.

(** The lists that the loop of lines 139-162 appends to, with the loop
    variable [con_fun]. *)
Record init_frame : Type := Frame {
  fr_funs : list (Callable (result vec));
  fr_jacs : list con_jac_closure;
  fr_hessians : list (option ConHess);
  fr_args : list Args;
  fr_kwargs : list Kwargs;
  fr_con_fun : option (Callable (result vec))
}.

Definition empty_frame : init_frame :=
  Frame [] [] [] [] [] None.

(** Lines 145-152: the constraint function and Jacobian that get stored. *)
Definition resolve_constraint (con : constraint)
  : result (Callable (result vec) * con_jac_closure) :=
  match con_fun_jac con with
  | Separate f JacNone => Ok (fun x a k => Ok (f x a k), Jac_lambda)
  | Combined fg =>
      Ok (MemoizeJac_call fg, Jac_callable (MemoizeJac_derivative fg))
  | Separate f (JacCallable j) =>
      Ok (fun x a k => Ok (f x a k), Jac_callable (fun x a k => Ok (j x a k)))
  | Separate f _ => Raise (NotImplementedError msg_jac)
  end.

(** Lines 153-157. *)
Definition hessian_mismatch (hess : option (Callable mat)) (con_hessian : option ConHess) : bool :=
  match hess, con_hessian with
  | Some _, None => true
  | None, Some _ => true
  | _, _ => false
  end.

(** One turn of the loop of lines 139-162. *)
Definition init_constraint (hess : option (Callable mat)) (fr : init_frame) (con : constraint)
  : result init_frame :=
  r <- resolve_constraint con ;;
  let '(con_fun, con_jac) := r in
  if hessian_mismatch hess (con_hess con) then Raise (NotImplementedError msg_hess)
  else
    Ok {| fr_funs := fr_funs fr ++ [con_fun];
          fr_jacs := fr_jacs fr ++ [con_jac];
          fr_hessians := fr_hessians fr ++ [con_hess con];
          fr_args := fr_args fr ++ [con_args con];
          fr_kwargs := fr_kwargs fr ++ [con_kwargs con];
          fr_con_fun := Some con_fun |}.

(** [IpoptProblemWrapper.__init__]. *)
Definition __init__ (fun_ : fun_jac Callable float vec) (args : Args) (kwargs : option Kwargs)
    (hess : option (Callable mat)) (hessp : option Hessp)
    (constraints : constraints_arg) (eps : float) (con_dims : list nat)
    (sparse_jacs : list bool) (jac_nnz_row jac_nnz_col : list nat)
  : result IpoptProblemWrapper :=
  if negb SCIPY_INSTALLED then Raise (ImportError "")
  else
    match hessp with
    | Some _ => Raise (NotImplementedError msg_hessp)
    | None =>
        fj <- resolve_objective fun_ eps ;;
        fr <- foldM (init_constraint hess) (as_tuple constraints) empty_frame ;;
        Ok {| obj_hess := hess;
              self_fun := fst fj;
              self_jac := snd fj;
              self_args := args;
              self_kwargs := match kwargs with Some k => k | None => [] end;
              _constraint_funs := fr_funs fr;
              _constraint_jacs := fr_jacs fr;
              _constraint_hessians := fr_hessians fr;
              _constraint_dims := con_dims;
              _constraint_args := fr_args fr;
              _constraint_kwargs := fr_kwargs fr;
              _constraint_jac_is_sparse := sparse_jacs;
              _constraint_jacobian_structure := (jac_nnz_row, jac_nnz_col);
              nfev := 0;
              njev := 0;
              nit := 0%Z;
              closure_con_fun := fr_con_fun fr;
              closure_eps := eps |}
    end.

Definition set_nfev (self : IpoptProblemWrapper) (n : nat) : IpoptProblemWrapper :=
  {| obj_hess := obj_hess self; self_fun := self_fun self; self_jac := self_jac self;
     self_args := self_args self; self_kwargs := self_kwargs self;
     _constraint_funs := _constraint_funs self; _constraint_jacs := _constraint_jacs self;
     _constraint_hessians := _constraint_hessians self;
     _constraint_dims := _constraint_dims self; _constraint_args := _constraint_args self;
     _constraint_kwargs := _constraint_kwargs self;
     _constraint_jac_is_sparse := _constraint_jac_is_sparse self;
     _constraint_jacobian_structure := _constraint_jacobian_structure self;
     nfev := n; njev := njev self; nit := nit self;
     closure_con_fun := closure_con_fun self; closure_eps := closure_eps self |}.

Definition set_njev (self : IpoptProblemWrapper) (n : nat) : IpoptProblemWrapper :=
  {| obj_hess := obj_hess self; self_fun := self_fun self; self_jac := self_jac self;
     self_args := self_args self; self_kwargs := self_kwargs self;
     _constraint_funs := _constraint_funs self; _constraint_jacs := _constraint_jacs self;
     _constraint_hessians := _constraint_hessians self;
     _constraint_dims := _constraint_dims self; _constraint_args := _constraint_args self;
     _constraint_kwargs := _constraint_kwargs self;
     _constraint_jac_is_sparse := _constraint_jac_is_sparse self;
     _constraint_jacobian_structure := _constraint_jacobian_structure self;
     nfev := nfev self; njev := n; nit := nit self;
     closure_con_fun := closure_con_fun self; closure_eps := closure_eps self |}.

Definition set_nit (self : IpoptProblemWrapper) (n : Z) : IpoptProblemWrapper :=
  {| obj_hess := obj_hess self; self_fun := self_fun self; self_jac := self_jac self;
     self_args := self_args self; self_kwargs := self_kwargs self;
     _constraint_funs := _constraint_funs self; _constraint_jacs := _constraint_jacs self;
     _constraint_hessians := _constraint_hessians self;
     _constraint_dims := _constraint_dims self; _constraint_args := _constraint_args self;
     _constraint_kwargs := _constraint_kwargs self;
     _constraint_jac_is_sparse := _constraint_jac_is_sparse self;
     _constraint_jacobian_structure := _constraint_jacobian_structure self;
     nfev := nfev self; njev := njev self; nit := n;
     closure_con_fun := closure_con_fun self; closure_eps := closure_eps self |}.

(** The methods that mutate [self] return the new state with their result. *)

Definition objective (self : IpoptProblemWrapper) (x : vec)
  : IpoptProblemWrapper * result float :=
  let self := set_nfev self (nfev self + 1) in
  (self, self_fun self x (self_args self) (self_kwargs self)).

(** The keyword arguments of [gradient] are ignored (line 176). *)
Definition gradient (self : IpoptProblemWrapper) (x : vec) (kwargs : Kwargs)
  : IpoptProblemWrapper * result ndarray :=
  let self := set_njev self (njev self + 1) in
  (self, self_jac self x (self_args self) (self_kwargs self)).

Definition evaluate_fun_with_grad (self : IpoptProblemWrapper) (x : vec)
  : IpoptProblemWrapper * result (float * ndarray) :=
  let '(self, r) := objective self x in
  match r with
  | Raise e => (self, Raise e)
  | Ok f =>
      let '(self, g) := gradient self x (self_kwargs self) in
      (self, fmap (pair f) g)
  end.

Definition constraints (self : IpoptProblemWrapper) (x : vec) : result vec :=
  con_values <- traverse (fun '(fun_, args, kwargs) => fun_ x args kwargs)
                  (zip3 (_constraint_funs self) (_constraint_args self)
                        (_constraint_kwargs self)) ;;
  hstack con_values.


(** Calling a stored constraint Jacobian.  The lambda looks [con_fun] up in
    the frame of [__init__] at the time of the call. *)
Definition call_con_jac (self : IpoptProblemWrapper) (jac : con_jac_closure)
  : Callable (result jacval) :=
  fun x0 args kwargs =>
    match jac with
    | Jac_callable j => j x0 args kwargs
    | Jac_lambda =>
        match closure_con_fun self with
        | Some con_fun =>
            fmap Dense
              (approx_fprime x0 (fun x a => fmap A1 (con_fun x a []))
                 (closure_eps self) args kwargs)
        | None => Raise (OtherError "NameError" "con_fun")
        end
    end.

(** One turn of the loop of lines 197-205.  Two cases lie outside the data
    model and are reported as a [TypeError]: under a sparse flag a dense
    array, whose [data] in Python is the array's raw buffer and no array of
    values, and under a dense flag a sparse value, which is no array.  A
    missing flag raises [IndexError]; the text is the one of the default
    [sparse_jacs=()], a tuple (a list says [list] in its place). *)
Definition jacobian_block (self : IpoptProblemWrapper) (x : vec)
    (item : nat * (con_jac_closure * Args * Kwargs)) : result vec :=
  let '(i, (jac, args, kwargs)) := item in
  match nth_error (_constraint_jac_is_sparse self) i with
  | None => Raise (IndexError "tuple index out of range")
  | Some true =>
      jac_val <- call_con_jac self jac x args kwargs ;;
      match jac_val with
      | Sparse c => Ok (coo_data c)
      | Dense _ => Raise (TypeError "dense Jacobian under a sparse flag")
      end
  | Some false =>
      jac_val <- call_con_jac self jac x args kwargs ;;
      match jac_val with
      | Dense a => Ok (ravel (atleast_2d a))
      | Sparse _ => Raise (TypeError "sparse Jacobian under a dense flag")
      end
  end.

Definition jacobian (self : IpoptProblemWrapper) (x : vec) : result vec :=
  jac_values <- traverse (jacobian_block self x)
                  (enumerate (zip3 (_constraint_jacs self) (_constraint_args self)
                                   (_constraint_kwargs self))) ;;
  hstack jac_values.

(** One turn of the loop of lines 212-215. *)
Definition hessian_add (x : vec) (H : mat) (item : option ConHess * Args * Kwargs * vec)
  : result mat :=
  let '(hessian, args, kwargs, lagr) := item in
  match hessian with
  | Some h => iadd H (h x lagr args kwargs)
  | None => Raise (TypeError "'NoneType' object is not callable")
  end.

Definition hessian (self : IpoptProblemWrapper) (x lagrange : vec) (obj_factor : float)
  : result vec :=
  match obj_hess self with
  | None => Raise (TypeError "'NoneType' object is not callable")
  | Some h =>
      let H := scale2 obj_factor (h x (self_args self) (self_kwargs self)) in
      let lagrs := split lagrange (cumsum (removelast (_constraint_dims self))) in
      H <- foldM (hessian_add x)
             (zip4 (_constraint_hessians self) (_constraint_args self)
                   (_constraint_kwargs self) lagrs) H ;;
      take H (tril_indices (length x))
  end.

(** Only [iter_count] of the eleven arguments is used. *)
Definition intermediate (self : IpoptProblemWrapper) (iter_count : Z) : IpoptProblemWrapper :=
  set_nit self iter_count.


(** ** Structure builders *)

(** A bound is a number or [None]. *)
Definition bound : Type := option float.

Definition get_bounds (bounds : option (list (bound * bound)))
  : option (list bound) * option (list bound) :=
  match bounds with
  | None => (None, None)
  | Some bs => (Some (map fst bs), Some (map snd bs))
  end.

(** Lines 252-260: a [coo_array] is kept and flagged sparse; of anything
    else only the shape is kept. *)
Definition probe_block (jac_val : jacval) : coo * bool :=
  match jac_val with
  | Sparse c => (c, true)
  | Dense a => let '(r, c) := shape (atleast_2d a) in (coo_ones r c, false)
  end.

(** One turn of the loop of lines 242-266.  A callable is true in a boolean
    context. *)
Definition probe_constraint (x0 : vec) (con : constraint) : result (coo * bool) :=
  match con_fun_jac con with
  | Combined fg => Ok (probe_block (snd (fg x0 (con_args con) (con_kwargs con))))
  | Separate _ (JacCallable con_jac) =>
      Ok (probe_block (con_jac x0 (con_args con) (con_kwargs con)))
  | Separate _ (JacOther true) => Raise (TypeError "object is not callable")
  | Separate f _ =>
      let con_val := f x0 (con_args con) (con_kwargs con) in
      Ok (coo_ones (length con_val) (length x0), false)
  end.

Definition _get_sparse_jacobian_structure (constraints : constraints_arg) (x0 : vec)
  : result (list bool * list nat * list nat) :=
  let constraints := as_tuple constraints in
  match constraints with
  | [] => Ok ([], [], [])
  | _ =>
      probed <- traverse (probe_constraint x0) constraints ;;
      let jacobians := map fst probed in
      let con_jac_is_sparse := map snd probed in
      J <- vstack jacobians ;;
      Ok (con_jac_is_sparse, coo_row J, coo_col J)
  end.

(** Lines 276-281 and 292-297: the length of the constraint's value at
    [x0]. *)
Definition con_dimension (con : constraint) (x0 : vec) : nat :=
  match con_fun_jac con with
  | Combined fg => length (fst (fg x0 (con_args con) (con_kwargs con)))
  | Separate f _ => length (f x0 (con_args con) (con_kwargs con))
  end.

Definition get_constraint_dimensions (constraints : constraints_arg) (x0 : vec) : list nat :=
  map (fun con => con_dimension con x0) (as_tuple constraints).

(** One turn of the loop of lines 291-304. *)
Definition bounds_step (x0 : vec) (INF : float) (acc : vec * vec) (con : constraint)
  : result (vec * vec) :=
  let '(cl, cu) := acc in
  let m := con_dimension con x0 in
  let cl := cl ++ zeros m in
  if String.eqb (con_type con) "eq" then Ok (cl, cu ++ zeros m)
  else if String.eqb (con_type con) "ineq" then Ok (cl, cu ++ scale INF (ones m))
  else Raise (ValueError (con_type con)).

Definition get_constraint_bounds (constraints : constraints_arg) (x0 : vec) (INF : float)
  : result (vec * vec) :=
  foldM (bounds_step x0 INF) (as_tuple constraints) ([], []).

(** The default of the parameter [INF]. *)
Definition INF_default : float := 1e19%float.

(** ** Solver options *)

(** An option name: text ([str]) or [bytes]. *)
Inductive key : Type :=
| KStr (s : string)
| KBytes (s : string).

Definition key_eqb (a b : key) : bool :=
  match a, b with
  | KStr s, KStr t => String.eqb s t
  | KBytes s, KBytes t => String.eqb s t
  | _, _ => false
  end.

Inductive optval : Type :=
| VInt (z : Z)
| VFloat (f : float)
| VStr (s : string)
| VBytes (s : string).

(** A dict keeps its items in insertion order. *)
Definition dict : Type := list (key * optval).

Fixpoint dict_get (d : dict) (k : key) : option optval :=
  match d with
  | [] => None
  | (k', v) :: d' => if key_eqb k' k then Some v else dict_get d' k
  end.

Definition dict_mem (d : dict) (k : key) : bool :=
  match dict_get d k with Some _ => true | None => false end.

(** [d[k] = v]: a present key keeps its place, a new one goes last. *)
Fixpoint dict_set (d : dict) (k : key) (v : optval) : dict :=
  match d with
  | [] => [(k, v)]
  | (k', v') :: d' => if key_eqb k' k then (k', v) :: d' else (k', v') :: dict_set d' k v
  end.

(** [d.pop(k)] for its effect on [d]. *)
Fixpoint dict_pop (d : dict) (k : key) : dict :=
  match d with
  | [] => []
  | (k', v') :: d' => if key_eqb k' k then d' else (k', v') :: dict_pop d' k
  end.

Definition replace_option (options : dict) (oldname newname : key) : dict :=
  match dict_get options oldname with
  | Some v =>
      if negb (dict_mem options newname)
      then dict_set (dict_pop options oldname) newname v
      else options
  | None => options
  end.

(** One turn of the loop of [convert_to_bytes]: [bytes(key, 'utf-8')] differs
    from a [str] key and raises the [TypeError] that is passed over for a
    [bytes] key.  A key of the snapshot is still in the dict when its turn
    comes, so the lookup finds it. *)
Definition convert_key (options : dict) (k : key) : dict :=
  match k with
  | KStr s =>
      match dict_get options k with
      | Some v => dict_pop (dict_set options (KBytes s) v) k
      | None => options
      end
  | KBytes _ => options
  end.

Definition convert_to_bytes (options : dict) : dict :=
  fold_left convert_key (map fst options) options.

(** ** Wrapping for the generic minimizer *)

(** A callable handed on as it is gets no keyword argument from its
    caller. *)
Definition _wrap_fun {P T : Type} (fun_ : vec -> P -> Kwargs -> T) (kwargs : option Kwargs)
  : vec -> P -> T :=
  match kwargs with
  | Some (kw :: kws) => fun x args => fun_ x args (kw :: kws)
  | _ => fun x args => fun_ x args []
  end.

(** [_wrap_fun] on a value that need not be callable. *)
Definition _wrap_jac {J : Type} (jac : jac_entry Callable J) (kwargs : option Kwargs)
  : jac_entry Positional J :=
  match jac with
  | JacCallable j => JacCallable (_wrap_fun j kwargs : Positional J)
  | JacNone => JacNone
  | JacFalse => JacFalse
  | JacOther t => JacOther t
  end.

Definition _wrap_fun_jac {V J : Type} (fj : fun_jac Callable V J) (kwargs : option Kwargs)
  : fun_jac Positional V J :=
  match fj with
  | Separate f jac => Separate (_wrap_fun f kwargs : Positional V) (_wrap_jac jac kwargs)
  | Combined fg => Combined (_wrap_fun fg kwargs : Positional (V * J))
  end.

(** A constraint dict after [_wrap_funs]: the copy without its ['kwargs']. *)
Record wrapped_constraint : Type := WrappedConstraint {
  wcon_fun_jac : fun_jac Positional vec jacval;
  wcon_type : string;
  wcon_args : Args;
  wcon_hess : option ConHess
}.

Definition _wrap_constraint (constraint : constraint) : wrapped_constraint :=
  let ckwargs := Some (con_kwargs constraint) in
  {| wcon_fun_jac := _wrap_fun_jac (con_fun_jac constraint) ckwargs;
     wcon_type := con_type constraint;
     wcon_args := con_args constraint;
     wcon_hess := con_hess constraint |}.

Definition _wrap_funs (fun_ : fun_jac Callable float vec) (hess : option (Callable mat))
    (hessp : option Hessp) (constraints : constraints_arg) (kwargs : option Kwargs)
  : fun_jac Positional float vec * option (Positional mat)
    * option (vec -> vec * Args -> vec) * list wrapped_constraint :=
  (_wrap_fun_jac fun_ kwargs,
   option_map (fun h => _wrap_fun h kwargs) hess,
   option_map (fun h => _wrap_fun h kwargs) hessp,
   map _wrap_constraint (as_tuple constraints)).

(** ** The driver *)

(** The initial guess: a 0-dimensional value or a 1-D array. *)
Inductive guess : Type :=
| Scalar (s : float)
| Array (v : vec).

Definition atleast_1d (x0 : guess) : vec :=
  match x0 with
  | Scalar s => [s]
  | Array v => v
  end.

(** The arguments of the call to [minimize] (lines 510-511). *)
Record minimize_call (Callback : Type) : Type := MinimizeCall {
  mc_fun : fun_jac Positional float vec;
  mc_x0 : guess;
  mc_args : Args;
  mc_method : string;
  mc_hess : option (Positional mat);
  mc_hessp : option (vec -> vec * Args -> vec);
  mc_bounds : option (list (bound * bound));
  mc_constraints : list wrapped_constraint;
  mc_tol : option float;
  mc_callback : option Callback;
  mc_options : option dict
}.

(** The generic minimizer. *)
Class Minimizer : Type := {
  Callback : Type;
  ScipyResult : Type;
  minimize : minimize_call Callback -> result ScipyResult
}.

(** What [solve] reports. *)
Record info : Type := Info {
  status : Z;
  status_msg : string;
  obj_val : float
}.

(** The native solver handle [cyipopt.Problem].  The handle shares the
    adapter with the driver: [solve] runs the callbacks on it and hands back
    the state it leaves it in. *)
Class Cyipopt : Type := {
  Nlp : Type;
  Problem : nat -> nat -> IpoptProblemWrapper -> option (list bound) -> option (list bound)
            -> vec -> vec -> result Nlp;
  add_option : Nlp -> key -> optval -> result Nlp;
  solve : Nlp -> IpoptProblemWrapper -> vec -> result (vec * info * IpoptProblemWrapper)
}.

(** Python's [str.format] on an option name and on an option value. *)
Class Formatting : Type := {
  format_key : key -> string;
  format_value : optval -> string
}.

Context {minimizer : Minimizer} {cyipopt : Cyipopt} {formatting : Formatting}.

Record OptimizeResult : Type := Result {
  res_x : guess;
  res_success : bool;
  res_status : Z;
  res_message : string;
  res_fun : float;
  res_info : info;
  res_nfev : nat;
  res_njev : nat;
  res_nit : Z
}.

Inductive outcome : Type :=
| Delegated (res : ScipyResult)
| Solved (res : OptimizeResult).

(** What the driver calls, in the order it calls it. *)
Inductive event : Type :=
| Call_minimize
| Call_get_bounds
| Call_get_constraint_bounds
| Call_get_constraint_dimensions
| Call_get_sparse_jacobian_structure
| Call_IpoptProblemWrapper
| Call_Problem (n m : nat)
| Call_add_option (option_ : key) (value : optval)
| Call_solve.

Definition traced (A : Type) : Type := list event * result A.

Definition tbind {A B : Type} (c : traced A) (k : A -> traced B) : traced B :=
  match c with
  | (t, Ok a) => let '(t', r) := k a in (t ++ t', r)
  | (t, Raise e) => (t, Raise e)
  end.

Definition call {A : Type} (ev : event) (r : result A) : traced A := ([ev], r).
Definition ret {A : Type} (a : A) : traced A := ([], Ok a).

Notation "x <~ e ;; k" := (tbind e (fun x => k))
  (at level 61, e at next level, right associativity).

Definition double_quote : string := String (ascii_of_nat 34) EmptyString.

(** Line 565-566: the message of the [TypeError] for a rejected option. *)
Definition invalid_option_message (option_ : key) (value : optval) (e : string) : string :=
  String.append "Invalid option for IPOPT: "
    (String.append (format_key option_)
       (String.append ": "
          (String.append (format_value value)
             (String.append " (Original message: "
                (String.append double_quote
                   (String.append e (String.append double_quote ")"))))))).

(** One turn of the loop of lines 561-566; only a [TypeError] is caught. *)
Definition apply_option (nlp : Nlp) (item : key * optval) : traced Nlp :=
  let '(option_, value) := item in
  call (Call_add_option option_ value)
    match add_option nlp option_ value with
    | Ok nlp' => Ok nlp'
    | Raise (TypeError e) => Raise (TypeError (invalid_option_message option_ value e))
    | Raise e => Raise e
    end.

Fixpoint apply_options (nlp : Nlp) (items : dict) : traced Nlp :=
  match items with
  | [] => ret nlp
  | it :: rest => nlp' <~ apply_option nlp it ;; apply_options nlp' rest
  end.

(** [tol or 1e-8]: [None] and zero are false. *)
Definition tol_or_default (tol : option float) : float :=
  match tol with
  | Some t => if PrimFloat.eqb t 0%float then 1e-8%float else t
  | None => 1e-8%float
  end.

(** Lines 547-560: the option dict that is applied to the solver. *)
Definition translate_options (options : dict) (tol : option float)
    (hess : option (Callable mat)) (hessp : option Hessp) : dict :=
  let options := convert_to_bytes options in
  let options := replace_option options (KBytes "disp") (KBytes "print_level") in
  let options := replace_option options (KBytes "maxiter") (KBytes "max_iter") in
  let options :=
    if negb (dict_mem options (KBytes "print_level"))
    then dict_set options (KBytes "print_level") (VInt 0) else options in
  let options :=
    if negb (dict_mem options (KBytes "tol"))
    then dict_set options (KBytes "tol") (VFloat (tol_or_default tol)) else options in
  let options :=
    if negb (dict_mem options (KBytes "mu_strategy"))
    then dict_set options (KBytes "mu_strategy") (VBytes "adaptive") else options in
  if negb (dict_mem options (KBytes "hessian_approximation"))
  then
    match hess, hessp with
    | None, None => dict_set options (KBytes "hessian_approximation") (VBytes "limited-memory")
    | _, _ => options
    end
  else options.

(** [x = x[0]] when the guess was 0-dimensional. *)
Definition unwrap_x (x0 : guess) (x : vec) : result guess :=
  match x0 with
  | Scalar _ =>
      match x with
      | a :: _ => Ok (Scalar a)
      | [] => Raise (IndexError "index 0 is out of bounds")
      end
  | Array _ => Ok (Array x)
  end.

Definition minimize_ipopt (fun_ : fun_jac Callable float vec) (x0 : guess) (args : Args)
    (kwargs : option Kwargs) (method : option string) (hess : option (Callable mat))
    (hessp : option Hessp) (bounds : option (list (bound * bound)))
    (constraints : constraints_arg) (tol : option float) (callback : option Callback)
    (options : option dict) : traced outcome :=
  if negb SCIPY_INSTALLED
  then ([], Raise (ImportError "Install SciPy to use the `minimize_ipopt` function."))
  else
    match method with
    | Some method =>
        let '(fun_, hess, hessp, constraints) :=
          _wrap_funs fun_ hess hessp constraints kwargs in
        res <~ call Call_minimize
                 (minimize {| mc_fun := fun_; mc_x0 := x0; mc_args := args;
                              mc_method := method; mc_hess := hess; mc_hessp := hessp;
                              mc_bounds := bounds; mc_constraints := constraints;
                              mc_tol := tol; mc_callback := callback;
                              mc_options := options |}) ;;
        ret (Delegated res)
    | None =>
        let _x0 := atleast_1d x0 in
        b <~ call Call_get_bounds (Ok (get_bounds bounds)) ;;
        let '(lb, ub) := b in
        c <~ call Call_get_constraint_bounds
               (get_constraint_bounds constraints _x0 INF_default) ;;
        let '(cl, cu) := c in
        con_dims <~ call Call_get_constraint_dimensions
                      (Ok (get_constraint_dimensions constraints _x0)) ;;
        s <~ call Call_get_sparse_jacobian_structure
               (_get_sparse_jacobian_structure constraints _x0) ;;
        let '(sparse_jacs, jac_nnz_row, jac_nnz_col) := s in
        problem <~ call Call_IpoptProblemWrapper
                     (__init__ fun_ args kwargs hess hessp constraints 1e-8%float
                        con_dims sparse_jacs jac_nnz_row jac_nnz_col) ;;
        let options := match options with Some o => o | None => [] end in
        nlp <~ call (Call_Problem (length _x0) (length cl))
                 (Problem (length _x0) (length cl) problem lb ub cl cu) ;;
        let options := translate_options options tol hess hessp in
        nlp <~ apply_options nlp options ;;
        sol <~ call Call_solve (solve nlp problem _x0) ;;
        let '(x, info, problem) := sol in
        x <~ ([], unwrap_x x0 x) ;;
        ret (Solved {| res_x := x;
                       res_success := Z.eqb (status info) 0;
                       res_status := status info;
                       res_message := status_msg info;
                       res_fun := obj_val info;
                       res_info := info;
                       res_nfev := nfev problem;
                       res_njev := njev problem;
                       res_nit := nit problem |})
    end.

(** ** Sequences of callbacks *)

(** A call of one of the adapter's methods, as the solver (or anyone holding
    the adapter) makes it. *)
Inductive method_call : Type :=
| call_objective (x : vec)
| call_gradient (x : vec) (kwargs : Kwargs)
| call_evaluate_fun_with_grad (x : vec)
| call_constraints (x : vec)
| call_jacobianstructure
| call_jacobian (x : vec)
| call_hessian (x lagrange : vec) (obj_factor : float)
| call_intermediate (iter_count : Z).

(** The adapter after a call. *)
Definition after (self : IpoptProblemWrapper) (c : method_call) : IpoptProblemWrapper :=
  match c with
  | call_objective x => fst (objective self x)
  | call_gradient x kwargs => fst (gradient self x kwargs)
  | call_evaluate_fun_with_grad x => fst (evaluate_fun_with_grad self x)
  | call_intermediate iter_count => intermediate self iter_count
  | call_constraints _ | call_jacobianstructure | call_jacobian _ | call_hessian _ _ _ => self
  end.

Definition run (self : IpoptProblemWrapper) (calls : list method_call) : IpoptProblemWrapper :=
  fold_left after calls self.

Definition is_ok {A : Type} (r : result A) : bool :=
  match r with Ok _ => true | Raise _ => false end.

(** How many times a call enters [objective], and how many times it enters
    [gradient]: [evaluate_fun_with_grad] calls both, the second only when
    the first returned. *)
Definition objective_entries (c : method_call) : nat :=
  match c with
  | call_objective _ | call_evaluate_fun_with_grad _ => 1
  | _ => 0
  end.

Definition gradient_entries (self : IpoptProblemWrapper) (c : method_call) : nat :=
  match c with
  | call_gradient _ _ => 1
  | call_evaluate_fun_with_grad x =>
      if is_ok (self_fun self x (self_args self) (self_kwargs self)) then 1 else 0
  | _ => 0
  end.

(** The iteration count of the last [intermediate] call, [d] when there is
    none. *)
Fixpoint last_iter_count (calls : list method_call) (d : Z) : Z :=
  match calls with
  | [] => d
  | call_intermediate k :: rest => last_iter_count rest k
  | _ :: rest => last_iter_count rest d
  end.

(** ** Reference notions for the statements *)

(** A constraint's own function, as lines 140 and 149 bind it. *)
Definition con_value_fun (con : constraint) : Callable (result vec) :=
  match con_fun_jac con with
  | Separate f _ => fun x a k => Ok (f x a k)
  | Combined fg => MemoizeJac_call fg
  end.

(** [kwargs or {}]. *)
Definition kwargs_or_empty (kwargs : option Kwargs) : Kwargs :=
  match kwargs with Some k => k | None => [] end.

(** A callable with keyword arguments baked in: called as [f(x, *args)] it
    calls the original with those keyword arguments. *)
Definition baked {P T : Type} (f : vec -> P -> Kwargs -> T) (kwargs : Kwargs) : vec -> P -> T :=
  fun x args => f x args kwargs.

Definition baked_jac {J : Type} (jac : jac_entry Callable J) (kwargs : Kwargs)
  : jac_entry Positional J :=
  match jac with
  | JacCallable j => JacCallable (baked j kwargs : Positional J)
  | JacNone => JacNone
  | JacFalse => JacFalse
  | JacOther t => JacOther t
  end.

Definition baked_fun_jac {V J : Type} (fj : fun_jac Callable V J) (kwargs : Kwargs)
  : fun_jac Positional V J :=
  match fj with
  | Separate f jac => Separate (baked f kwargs : Positional V) (baked_jac jac kwargs)
  | Combined fg => Combined (baked fg kwargs : Positional (V * J))
  end.

Definition baked_constraint (con : constraint) : wrapped_constraint :=
  {| wcon_fun_jac := baked_fun_jac (con_fun_jac con) (con_kwargs con);
     wcon_type := con_type con;
     wcon_args := con_args con;
     wcon_hess := con_hess con |}.

(** The entry of a matrix at row [i], column [j]. *)
Definition entry (M : mat) (i j : nat) : float := nth j (nth i M []) 0%float.

(** An [n] by [n] array. *)
Definition square (n : nat) (M : mat) : Prop :=
  length M = n /\ Forall (fun r => length r = n) M.

(** Entry [(i, j)] of [obj_factor * H0 + G1 + ... + Gm], added in that
    order. *)
Definition lagrangian_entry (obj_factor : float) (H0 : mat) (Gs : list mat) (i j : nat) : float :=
  fold_left (fun acc G => PrimFloat.add acc (entry G i j)) Gs
    (PrimFloat.mul obj_factor (entry H0 i j)).



(** The stored Jacobian of a constraint, as lines 145-150 bind it. *)
Definition con_jac_stored (con : constraint) : result con_jac_closure :=
  fmap snd (resolve_constraint con).

(** A type tag that the bound assembly knows. *)
Definition valid_type (c : constraint) : Prop :=
  con_type c = "eq" \/ con_type c = "ineq".

(** The Hessians of the constraints at [x], each with its own segment of
    the multipliers. *)
Definition constraint_hessians (x : vec) (cs : list constraint) (segs : list vec)
  : list mat :=
  map (fun cs' : constraint * vec =>
         match con_hess (fst cs') with
         | Some g => g x (snd cs') (con_args (fst cs')) (con_kwargs (fst cs'))
         | None => []
         end) (combine cs segs).

(** An array of [r] rows and [c] columns. *)
Definition rect (r c : nat) (M : mat) : Prop :=
  length M = r /\ Forall (fun row => length row = c) M.





(** The calls of the native path up to the construction of the adapter. *)
Definition native_trace_to_adapter : list event :=
  [Call_get_bounds; Call_get_constraint_bounds; Call_get_constraint_dimensions;
   Call_get_sparse_jacobian_structure; Call_IpoptProblemWrapper].

(** The names of a dict, in order. *)
Definition keys (d : dict) : list key := map fst d.

(** The steps of lines 552-557: a default for a missing name. *)
Definition set_default (d : dict) (k : key) (v : optval) : dict :=
  if negb (dict_mem d k) then dict_set d k v else d.

(** The events of applying a list of options. *)
Definition option_events (items : dict) : list event :=
  map (fun kv => Call_add_option (fst kv) (snd kv)) items.

(** A constraint that supplies no Jacobian: its ['jac'] entry is left out,
    [None], [False] or another false value. *)
Definition no_jacobian (c : constraint) : Prop :=
  exists f jac,
    con_fun_jac c = Separate f jac
    /\ (jac = JacNone \/ jac = JacFalse \/ jac = JacOther false).

(** A name that is already [bytes]. *)
Definition is_bytes (k : key) : bool :=
  match k with KBytes _ => true | KStr _ => false end.

(** The [bytes] spelling of a name. *)
Definition to_bytes (k : key) : key :=
  match k with KStr s => KBytes s | KBytes s => KBytes s end.

(** A constraint that the loop of [__init__] lets through: its ['jac'] entry
    is usable and its Hessian is there exactly when the objective's is. *)
Definition acceptable (hess : option (Callable mat)) (con : constraint) : bool :=
  is_ok (resolve_constraint con) && negb (hessian_mismatch hess (con_hess con)).

(** An adapter with its three counters replaced. *)
Definition with_counters (self : IpoptProblemWrapper) (a b : nat) (c : Z) : IpoptProblemWrapper :=
  set_nit (set_njev (set_nfev self a) b) c.

End Model.

Arguments call_objective {Val} x.
Arguments call_gradient {Val} x kwargs.
Arguments call_evaluate_fun_with_grad {Val} x.
Arguments call_constraints {Val} x.
Arguments call_jacobianstructure {Val}.
Arguments call_jacobian {Val} x.
Arguments call_hessian {Val} x lagrange obj_factor.
Arguments call_intermediate {Val} iter_count.

(** ** Stand-ins for the collaborators

    Small instances of the collaborator classes, used to run the model on
    concrete problems.  Extra arguments are numbers. *)

Module Examples.

Definition V : Type := float.

(** [x] with [eps] added to its [k]-th entry. *)
Fixpoint bump (x : vec) (k : nat) (eps : float) : vec :=
  match x, k with
  | [], _ => []
  | a :: x', 0 => PrimFloat.add a eps :: x'
  | a :: x', S k' => a :: bump x' k' eps
  end.

(** The points at which a forward difference evaluates its function: the
    base point, then one perturbed point per variable. *)
Definition fd_points (xk : vec) (eps : float) : list vec :=
  xk :: map (fun k => bump xk k eps) (seq 0 (length xk)).

Definition quotient (eps f0 fk : float) : float := PrimFloat.div (PrimFloat.sub fk f0) eps.

Definition scalar_of (a : ndarray) : result float :=
  match a with
  | A0 s => Ok s
  | A1 [s] => Ok s
  | _ => Raise (ValueError "the function must return a scalar")
  end.

(** Forward differences of a scalar function, as SciPy documents
    [approx_fprime]; keyword arguments are not accepted. *)
Definition forward_difference (xk : vec) (f : vec -> Args V -> result ndarray)
    (eps : float) (args : Args V) (kwargs : Kwargs V) : result ndarray :=
  match kwargs with
  | _ :: _ => Raise (TypeError "approx_fprime() got an unexpected keyword argument")
  | [] =>
      values <- traverse (fun p => a <- f p args ;; scalar_of a) (fd_points xk eps) ;;
      match values with
      | f0 :: fs => Ok (A1 (map (quotient eps f0) fs))
      | [] => Ok (A1 [])
      end
  end.

(** [MemoizeJac]: the two halves of the pair that the function returns; the
    wrapper takes no keyword arguments. *)
Definition memo_call (T J : Type) (fg : Callable V (T * J)) : Callable V (result T) :=
  fun x args kwargs =>
    match kwargs with
    | [] => Ok (fst (fg x args []))
    | _ :: _ => Raise (TypeError "__call__() got an unexpected keyword argument")
    end.

Definition memo_derivative (T J : Type) (fg : Callable V (T * J)) : Callable V (result J) :=
  fun x args kwargs =>
    match kwargs with
    | [] => Ok (snd (fg x args []))
    | _ :: _ => Raise (TypeError "derivative() got an unexpected keyword argument")
    end.

#[export] Instance scipy : SciPy V :=
  {| approx_fprime := forward_difference;
     MemoizeJac_call := memo_call;
     MemoizeJac_derivative := memo_derivative |}.

(** A minimizer that reports the method it was asked for. *)
#[export] Instance minimizer : Minimizer V :=
  {| Callback := unit;
     ScipyResult := string;
     minimize := fun c => Ok (mc_method c) |}.

Definition known_options : list string :=
  ["print_level"; "max_iter"; "tol"; "mu_strategy"; "hessian_approximation"].

(** A solver handle that records the options it accepted, knows five option
    names, and reports the initial point as the solution. *)
#[export] Instance cyipopt : Cyipopt V :=
  {| Nlp := dict;
     Problem := fun _ _ _ _ _ _ _ => Ok [];
     add_option := fun nlp k v =>
       match k with
       | KBytes s =>
           if existsb (String.eqb s) known_options then Ok (nlp ++ [(k, v)])
           else Raise (TypeError "No such option")
       | KStr _ => Raise (TypeError "expected bytes")
       end;
     solve := fun _ problem x0 => Ok (x0, Info 0 "Optimal Solution Found" 0%float, problem) |}.

#[export] Instance formatting : Formatting :=
  {| format_key := fun k =>
       match k with
       | KStr s => s
       | KBytes s => String.append "b'" (String.append s "'")
       end;
     format_value := fun v =>
       match v with
       | VInt _ => "<int>"
       | VFloat _ => "<float>"
       | VStr s => s
       | VBytes s => String.append "b'" (String.append s "'")
       end |}.

(** [f(x) = (x0 - 3)^2]. *)
Definition parabola : Callable V float :=
  fun x _ _ =>
    let d := PrimFloat.sub (hd 0%float x) 3%float in PrimFloat.mul d d.

(** The constraint [x0 + x1 - 1 = 0] and the pair of constraints
    [(x0, x1) >= 0], each without a Jacobian. *)
Definition sum_to_one : Callable V vec :=
  fun x _ _ => [PrimFloat.sub (PrimFloat.add (nth 0 x 0%float) (nth 1 x 0%float)) 1%float].

Definition both : Callable V vec :=
  fun x _ _ => [nth 0 x 0%float; nth 1 x 0%float].

Definition con (f : Callable V vec) (jac : jac_entry (Callable V) jacval) (type : string)
  : constraint V :=
  {| con_fun_jac := Separate f jac; con_type := type; con_args := [];
     con_kwargs := []; con_hess := None |}.




(** An objective Hessian and a constraint Hessian in two variables. *)
Definition parabola_hess : Callable V mat :=
  fun _ _ _ => [[2; 0]; [0; 0]]%float.

Definition product_hess : ConHess V :=
  fun _ lagr _ _ =>
    let l := hd 0%float lagr in [[0%float; l]; [l; 0%float]].

Definition with_hess : constraints_arg V :=
  Dict {| con_fun_jac := Separate sum_to_one JacNone; con_type := "eq"; con_args := [];
          con_kwargs := []; con_hess := Some product_hess |}.

(** Two constraints that give no Jacobian. *)
Definition two_without_jac : constraints_arg V :=
  Tuple [con sum_to_one JacNone "eq"; con both JacNone "ineq"].

(** A Hessian-vector product. *)
Definition some_hessp : Hessp V := fun _ p _ => fst p.

(** Options with one name spelled both ways. *)
Definition mixed_options : dict :=
  [(KBytes "tol", VFloat 0.5%float); (KStr "tol", VFloat 0.25%float);
   (KStr "max_iter", VInt 50)].

End Examples.

(** * Properties *)

Unset Implicit Arguments.

(** *** Option dictionaries *)

Lemma key_eqb_eq a b : key_eqb a b = true <-> a = b.
Proof.
  destruct a as [s|s], b as [t|t]; simpl; try (split; [discriminate|congruence]);
    rewrite String.eqb_eq; split; congruence.
Qed.

Lemma key_eqb_refl a : key_eqb a a = true.
Proof. apply key_eqb_eq. reflexivity. Qed.

Lemma key_eqb_neq a b : a <> b -> key_eqb a b = false.
Proof.
  intro N. destruct (key_eqb a b) eqn:E; [|reflexivity].
  apply key_eqb_eq in E. contradiction.
Qed.

Lemma dict_get_None d k : dict_get d k = None <-> ~ In k (keys d).
Proof.
  induction d as [|[k' v] d IH]; simpl; [tauto|].
  destruct (key_eqb k' k) eqn:E.
  - apply key_eqb_eq in E. split; [discriminate|]. intro N. exfalso. apply N. auto.
  - rewrite IH. split.
    + intros N [H|H]; [|contradiction]. subst. rewrite key_eqb_refl in E. discriminate.
    + tauto.
Qed.

Lemma key_eq_dec (a b : key) : {a = b} + {a <> b}.
Proof. decide equality; apply string_dec. Qed.

Lemma dict_mem_In d k : dict_mem d k = true <-> In k (keys d).
Proof.
  unfold dict_mem. destruct (dict_get d k) eqn:E.
  - split; [|reflexivity]. intros _.
    destruct (in_dec key_eq_dec k (keys d)) as [I|N]; [exact I|].
    apply dict_get_None in N. congruence.
  - split; [discriminate|]. intro I. apply dict_get_None in E. contradiction.
Qed.

Lemma dict_mem_get d k : dict_mem d k = match dict_get d k with Some _ => true | None => false end.
Proof. reflexivity. Qed.

Lemma dict_get_set_same d k v : dict_get (dict_set d k v) k = Some v.
Proof.
  induction d as [|[k' v'] d IH]; simpl.
  - rewrite key_eqb_refl. reflexivity.
  - destruct (key_eqb k' k) eqn:E; simpl; rewrite E; [reflexivity|exact IH].
Qed.

Lemma dict_get_set_other d k v k' : k' <> k -> dict_get (dict_set d k v) k' = dict_get d k'.
Proof.
  intro N. induction d as [|[k0 v0] d IH]; simpl.
  - rewrite key_eqb_neq by congruence. reflexivity.
  - destruct (key_eqb k0 k) eqn:E; simpl.
    + apply key_eqb_eq in E. subst. rewrite key_eqb_neq by congruence. reflexivity.
    + destruct (key_eqb k0 k'); [reflexivity|exact IH].
Qed.

Lemma dict_get_pop_other d k k' : k' <> k -> dict_get (dict_pop d k) k' = dict_get d k'.
Proof.
  intro N. induction d as [|[k0 v0] d IH]; simpl; [reflexivity|].
  destruct (key_eqb k0 k) eqn:E; simpl.
  - apply key_eqb_eq in E. subst. rewrite key_eqb_neq by congruence. reflexivity.
  - destruct (key_eqb k0 k'); [reflexivity|exact IH].
Qed.

Lemma keys_pop_incl d k k' : In k' (keys (dict_pop d k)) -> In k' (keys d).
Proof.
  induction d as [|[k0 v0] d IH]; simpl; [tauto|].
  destruct (key_eqb k0 k); simpl; tauto.
Qed.

Lemma NoDup_pop d k : NoDup (keys d) -> NoDup (keys (dict_pop d k)).
Proof.
  induction d as [|[k0 v0] d IH]; simpl; intro ND; [constructor|].
  inversion ND as [|? ? NI ND']; subst.
  destruct (key_eqb k0 k); simpl; [exact ND'|].
  constructor; [|apply IH; exact ND'].
  intro I. apply NI. apply (keys_pop_incl _ _ _ I).
Qed.

Lemma dict_get_pop_same d k : NoDup (keys d) -> dict_get (dict_pop d k) k = None.
Proof.
  induction d as [|[k0 v0] d IH]; simpl; intro ND; [reflexivity|].
  inversion ND as [|? ? NI ND']; subst.
  destruct (key_eqb k0 k) eqn:E; simpl.
  - apply key_eqb_eq in E. subst. apply dict_get_None. exact NI.
  - rewrite E. apply IH. exact ND'.
Qed.

Lemma keys_set d k v k' : In k' (keys (dict_set d k v)) <-> k' = k \/ In k' (keys d).
Proof.
  induction d as [|[k0 v0] d IH]; simpl.
  - intuition congruence.
  - destruct (key_eqb k0 k) eqn:E; simpl.
    + apply key_eqb_eq in E. subst. intuition congruence.
    + rewrite IH. intuition congruence.
Qed.

Lemma NoDup_set d k v : NoDup (keys d) -> NoDup (keys (dict_set d k v)).
Proof.
  induction d as [|[k0 v0] d IH]; simpl; intro ND.
  - constructor; [simpl; tauto|constructor].
  - inversion ND as [|? ? NI ND']; subst.
    destruct (key_eqb k0 k) eqn:E; simpl.
    + constructor; assumption.
    + constructor; [|apply IH; exact ND'].
      rewrite keys_set. intros [H|H]; [|contradiction].
      subst. rewrite key_eqb_refl in E. discriminate.
Qed.

(** [replace_option] moves the value of [oldname] under [newname] unless
    [newname] is taken. *)
Lemma replace_option_new d oldname newname :
  oldname <> newname ->
  dict_get (replace_option d oldname newname) newname
  = match dict_get d newname with
    | Some v => Some v
    | None => dict_get d oldname
    end.
Proof.
  intro N. unfold replace_option, dict_mem.
  destruct (dict_get d oldname) as [v|] eqn:Eo;
    destruct (dict_get d newname) as [v'|] eqn:En; simpl; try assumption; try reflexivity.
  apply dict_get_set_same.
Qed.

Lemma replace_option_old d oldname newname :
  oldname <> newname -> NoDup (keys d) ->
  dict_get (replace_option d oldname newname) oldname
  = match dict_get d newname with
    | Some _ => dict_get d oldname
    | None => None
    end.
Proof.
  intros N ND. unfold replace_option, dict_mem.
  destruct (dict_get d oldname) as [v|] eqn:Eo;
    destruct (dict_get d newname) as [v'|] eqn:En; simpl; try assumption; try reflexivity.
  rewrite dict_get_set_other by exact N. apply dict_get_pop_same. exact ND.
Qed.

Lemma replace_option_other d oldname newname k :
  k <> oldname -> k <> newname ->
  dict_get (replace_option d oldname newname) k = dict_get d k.
Proof.
  intros N1 N2. unfold replace_option.
  destruct (dict_get d oldname) as [v|]; [|reflexivity].
  destruct (dict_mem d newname); simpl; [reflexivity|].
  rewrite dict_get_set_other by exact N2. apply dict_get_pop_other. exact N1.
Qed.

Lemma NoDup_replace_option d oldname newname :
  NoDup (keys d) -> NoDup (keys (replace_option d oldname newname)).
Proof.
  intro ND. unfold replace_option.
  destruct (dict_get d oldname) as [v|]; [|exact ND].
  destruct (dict_mem d newname); simpl; [exact ND|].
  apply NoDup_set, NoDup_pop, ND.
Qed.

Lemma NoDup_convert_key d k : NoDup (keys d) -> NoDup (keys (convert_key d k)).
Proof.
  intro ND. unfold convert_key. destruct k as [s|s]; [|exact ND].
  destruct (dict_get d (KStr s)); [|exact ND].
  apply NoDup_pop, NoDup_set, ND.
Qed.

Lemma NoDup_convert_to_bytes d : NoDup (keys d) -> NoDup (keys (convert_to_bytes d)).
Proof.
  unfold convert_to_bytes. generalize (map fst d) as ks. intro ks. revert d.
  induction ks as [|k ks IH]; intros d ND; simpl; [exact ND|].
  apply IH, NoDup_convert_key, ND.
Qed.

Lemma set_default_same d k v :
  dict_get (set_default d k v) k
  = Some (match dict_get d k with Some v' => v' | None => v end).
Proof.
  unfold set_default, dict_mem. destruct (dict_get d k) eqn:E; simpl.
  - exact E.
  - apply dict_get_set_same.
Qed.

Lemma set_default_other d k v k' :
  k' <> k -> dict_get (set_default d k v) k' = dict_get d k'.
Proof.
  intro N. unfold set_default. destruct (negb (dict_mem d k)); [|reflexivity].
  apply dict_get_set_other. exact N.
Qed.


Section Properties.
Variable Val : Type.
Context {scipy : SciPy Val}.

Lemma resolve_constraint_raises (con : constraint Val) e :
  resolve_constraint con = Raise e -> e = NotImplementedError msg_jac.
Proof.
  unfold resolve_constraint.
  destruct (con_fun_jac con) as [f [| |j|t]|fg]; intro H; inversion H; reflexivity.
Qed.

Lemma init_constraint_ok hess fr con :
  acceptable hess con = true ->
  exists fj, resolve_constraint con = Ok fj /\
    init_constraint hess fr con =
      Ok {| fr_funs := fr_funs fr ++ [fst fj];
            fr_jacs := fr_jacs fr ++ [snd fj];
            fr_hessians := fr_hessians fr ++ [con_hess con];
            fr_args := fr_args fr ++ [con_args con];
            fr_kwargs := fr_kwargs fr ++ [con_kwargs con];
            fr_con_fun := Some (fst fj) |}.
Proof.
  unfold acceptable, init_constraint. intro H.
  apply andb_true_iff in H. destruct H as [H1 H2].
  destruct (resolve_constraint con) as [[cf cj]|e]; [|discriminate].
  exists (cf, cj). split; [reflexivity|]. simpl.
  apply negb_true_iff in H2. rewrite H2. reflexivity.
Qed.

Lemma init_constraint_raise hess fr con :
  acceptable hess con = false ->
  exists m, init_constraint hess fr con = Raise (NotImplementedError m).
Proof.
  unfold acceptable, init_constraint. intro H.
  destruct (resolve_constraint con) as [[cf cj]|e] eqn:E.
  - simpl in H. apply negb_false_iff in H. simpl. rewrite H. eauto.
  - apply resolve_constraint_raises in E. subst. simpl. eauto.
Qed.

Lemma foldM_init_raise hess cs : forall fr,
  forallb (acceptable hess) cs = false ->
  exists m, foldM (init_constraint hess) cs fr = Raise (NotImplementedError m).
Proof.
  induction cs as [|c cs IH]; intros fr H; [discriminate|].
  simpl in H. simpl.
  destruct (acceptable hess c) eqn:A.
  - destruct (init_constraint_ok hess fr c A) as [fj [_ E]]. rewrite E. simpl.
    apply IH. exact H.
  - destruct (init_constraint_raise hess fr c A) as [m E]. rewrite E. simpl. eauto.
Qed.


Lemma init_constraint_acceptable hess fr con fr' :
  init_constraint hess fr con = Ok fr' -> acceptable hess con = true.
Proof.
  intro H. destruct (acceptable hess con) eqn:A; [reflexivity|].
  destruct (init_constraint_raise hess fr con A) as [m E]. congruence.
Qed.

Lemma resolve_constraint_fun (con : constraint Val) fj :
  resolve_constraint con = Ok fj -> fst fj = con_value_fun con.
Proof.
  unfold resolve_constraint, con_value_fun.
  destruct (con_fun_jac con) as [f [| |j|t]|fg]; intro H; inversion H; reflexivity.
Qed.

Lemma last_cons_default {A} (l : list A) (x d : A) : last (x :: l) d = last l x.
Proof.
  revert x d. induction l as [|y l IH]; intros x d; [reflexivity|].
  change (last (y :: l) d = last (y :: l) x). rewrite !IH. reflexivity.
Qed.

(** The frame after the loop over acceptable constraints. *)
Lemma foldM_init_ok hess cs : forall fr,
  forallb (acceptable hess) cs = true ->
  exists jacs,
    traverse (@con_jac_stored Val scipy) cs = Ok jacs /\
    foldM (init_constraint hess) cs fr =
      Ok {| fr_funs := fr_funs fr ++ map (@con_value_fun Val scipy) cs;
            fr_jacs := fr_jacs fr ++ jacs;
            fr_hessians := fr_hessians fr ++ map (@con_hess Val) cs;
            fr_args := fr_args fr ++ map (@con_args Val) cs;
            fr_kwargs := fr_kwargs fr ++ map (@con_kwargs Val) cs;
            fr_con_fun := last (map (fun c => Some (con_value_fun c)) cs) (fr_con_fun fr) |}.
Proof.
  induction cs as [|c cs IH]; intros fr H.
  - exists []. split; [reflexivity|]. simpl. rewrite !app_nil_r. destruct fr; reflexivity.
  - simpl in H. apply andb_true_iff in H. destruct H as [A H].
    destruct (init_constraint_ok hess fr c A) as [fj [R E]].
    simpl. rewrite E. simpl.
    match goal with |- context [foldM _ cs ?fr'] => destruct (IH fr' H) as [jacs [T F]] end.
    rewrite F. simpl.
    exists (snd fj :: jacs). split.
    + unfold con_jac_stored at 1. rewrite R. simpl. rewrite T. reflexivity.
    + rewrite <- !app_assoc. simpl. rewrite (resolve_constraint_fun _ _ R).
      f_equal. f_equal.
      exact (eq_sym (last_cons_default _ _ _)).
Qed.

Lemma foldM_init_acceptable hess cs : forall fr fr',
  foldM (init_constraint hess) cs fr = Ok fr' -> forallb (acceptable hess) cs = true.
Proof.
  intros fr fr' H. destruct (forallb (acceptable hess) cs) eqn:A; [reflexivity|].
  destruct (foldM_init_raise hess cs fr A) as [m E]. congruence.
Qed.

(** What a successful construction leaves in the adapter. *)
Lemma init_inv f args kwargs hess hessp cs eps dims sp row col w :
  __init__ f args kwargs hess hessp cs eps dims sp row col = Ok w ->
  hessp = None /\
  forallb (acceptable hess) (as_tuple cs) = true /\
  exists fj jacs,
    resolve_objective f eps = Ok fj /\
    traverse (@con_jac_stored Val scipy) (as_tuple cs) = Ok jacs /\
    w = {| obj_hess := hess;
           self_fun := fst fj;
           self_jac := snd fj;
           self_args := args;
           self_kwargs := kwargs_or_empty kwargs;
           _constraint_funs := map (@con_value_fun Val scipy) (as_tuple cs);
           _constraint_jacs := jacs;
           _constraint_hessians := map (@con_hess Val) (as_tuple cs);
           _constraint_dims := dims;
           _constraint_args := map (@con_args Val) (as_tuple cs);
           _constraint_kwargs := map (@con_kwargs Val) (as_tuple cs);
           _constraint_jac_is_sparse := sp;
           _constraint_jacobian_structure := (row, col);
           nfev := 0;
           njev := 0;
           nit := 0%Z;
           closure_con_fun := last (map (fun c => Some (con_value_fun c)) (as_tuple cs)) None;
           closure_eps := eps |}.
Proof.
  unfold __init__. simpl.
  destruct hessp as [hp|]; [discriminate|].
  destruct (resolve_objective f eps) as [fj|e] eqn:RO; [|discriminate]. simpl.
  destruct (foldM (init_constraint hess) (as_tuple cs) (empty_frame Val)) as [fr|e] eqn:F;
    [|discriminate]. simpl.
  intro H. inversion H; subst; clear H.
  pose proof (foldM_init_acceptable _ _ _ _ F) as A.
  destruct (foldM_init_ok hess (as_tuple cs) (empty_frame Val) A) as [jacs [T F']].
  rewrite F' in F. inversion F; subst; clear F.
  split; [reflexivity|]. split; [exact A|].
  exists fj, jacs. repeat split; try assumption.
Qed.

Lemma init_ok f args kwargs hess cs eps dims sp row col :
  is_ok (resolve_objective f eps) = true ->
  forallb (acceptable hess) (as_tuple cs) = true ->
  exists w, __init__ f args kwargs hess None cs eps dims sp row col = Ok w.
Proof.
  intros RO A. unfold __init__. simpl.
  destruct (resolve_objective f eps) as [fj|e]; [|discriminate]. simpl.
  destruct (foldM_init_ok hess (as_tuple cs) (empty_frame Val) A) as [jacs [_ F]].
  rewrite F. simpl. eauto.
Qed.

Lemma resolve_objective_raises (f : fun_jac (Callable Val) float vec) eps e :
  resolve_objective f eps = Raise e -> e = NotImplementedError msg_jac.
Proof.
  unfold resolve_objective.
  destruct f as [f [| |j|t]|fg]; intro H; inversion H; reflexivity.
Qed.

(** Whatever [__init__] raises is a [NotImplementedError]. *)
Lemma init_raises f args kwargs hess hessp cs eps dims sp row col e :
  __init__ f args kwargs hess hessp cs eps dims sp row col = Raise e ->
  exists m, e = NotImplementedError m.
Proof.
  unfold __init__. simpl.
  destruct hessp as [hp|]; [intro H; inversion H; eauto|].
  destruct (resolve_objective f eps) as [fj|e'] eqn:RO; simpl.
  - destruct (forallb (acceptable hess) (as_tuple cs)) eqn:A.
    + destruct (foldM_init_ok hess (as_tuple cs) (empty_frame Val) A) as [jacs [_ F]].
      rewrite F. simpl. discriminate.
    + destruct (foldM_init_raise hess (as_tuple cs) (empty_frame Val) A) as [m F].
      rewrite F. simpl. intro H; inversion H; eauto.
  - apply resolve_objective_raises in RO. subst. intro H; inversion H; eauto.
Qed.

Lemma init_rejects f args kwargs hess hessp cs eps dims sp row col :
  forallb (acceptable hess) (as_tuple cs) = false ->
  exists m, __init__ f args kwargs hess hessp cs eps dims sp row col
            = Raise (NotImplementedError m).
Proof.
  intro A.
  destruct (__init__ f args kwargs hess hessp cs eps dims sp row col) as [w|e] eqn:E.
  - apply init_inv in E. destruct E as [_ [A' _]]. congruence.
  - destruct (init_raises _ _ _ _ _ _ _ _ _ _ _ _ E) as [m ->]. eauto.
Qed.

Lemma forallb_false_In {A} (p : A -> bool) l a : In a l -> p a = false -> forallb p l = false.
Proof.
  intros I P. destruct (forallb p l) eqn:F; [|reflexivity].
  rewrite forallb_forall in F. rewrite (F a I) in P. discriminate.
Qed.


(** *** The counters *)

Lemma with_counters_id (w : IpoptProblemWrapper Val) :
  with_counters w (nfev w) (njev w) (nit w) = w.
Proof. destruct w; reflexivity. Qed.

Lemma after_with_counters (w : IpoptProblemWrapper Val) a b c call :
  after (with_counters w a b c) call
  = with_counters w (a + objective_entries call) (b + gradient_entries w call)
      (last_iter_count [call] c).
Proof.
  destruct call; simpl; rewrite ?Nat.add_0_r; try reflexivity.
  unfold evaluate_fun_with_grad, objective, gradient. simpl.
  destruct (self_fun w x (self_args w) (self_kwargs w)); simpl;
    rewrite ?Nat.add_0_r; reflexivity.
Qed.

Lemma last_iter_count_app (calls more : list (method_call Val)) d :
  last_iter_count (calls ++ more) d = last_iter_count more (last_iter_count calls d).
Proof.
  revert d. induction calls as [|c calls IH]; intro d; [reflexivity|].
  destruct c; simpl; apply IH.
Qed.

Lemma run_with_counters (w : IpoptProblemWrapper Val) calls : forall a b c,
  run (with_counters w a b c) calls
  = with_counters w (a + sum (map (@objective_entries Val) calls))
      (b + sum (map (gradient_entries w) calls)) (last_iter_count calls c).
Proof.
  unfold run.
  induction calls as [|call calls IH]; intros a b c.
  - simpl. rewrite !Nat.add_0_r. reflexivity.
  - simpl fold_left. rewrite after_with_counters, IH.
    simpl sum. rewrite !Nat.add_assoc.
    f_equal. destruct call; reflexivity.
Qed.

Lemma run_counters (w : IpoptProblemWrapper Val) calls :
  run w calls
  = with_counters w (nfev w + sum (map (@objective_entries Val) calls))
      (njev w + sum (map (gradient_entries w) calls)) (last_iter_count calls (nit w)).
Proof.
  rewrite <- (with_counters_id w) at 1. apply run_with_counters.
Qed.

Lemma sum_app l l' : sum (l ++ l') = sum l + sum l'.
Proof. induction l; simpl; lia. Qed.


(** C6 (amended).  A new adapter has all three counters at zero.  After any
    sequence of calls, [nfev] is the number of times [objective] was entered
    and [njev] the number of times [gradient] was entered, whatever the
    arguments and whatever other methods were called in between; neither
    ever decreases as more calls follow.  [nit] is the iteration count
    passed to the latest [intermediate] call (zero before the first). *)
Theorem counters_follow_calls f args kwargs hess hessp cs eps dims sp row col w :
  __init__ f args kwargs hess hessp cs eps dims sp row col = Ok w ->
  (nfev w = 0 /\ njev w = 0 /\ nit w = 0%Z) /\
  forall calls,
    nfev (run w calls) = sum (map (@objective_entries Val) calls) /\
    njev (run w calls) = sum (map (gradient_entries w) calls) /\
    nit (run w calls) = last_iter_count calls 0%Z /\
    forall more,
      nfev (run w calls) <= nfev (run w (calls ++ more)) /\
      njev (run w calls) <= njev (run w (calls ++ more)).
Proof.
  intro H. apply init_inv in H.
  destruct H as [_ [_ [fj [jacs [_ [_ W]]]]]].
  assert (Z0 : nfev w = 0 /\ njev w = 0 /\ nit w = 0%Z) by (subst w; auto).
  split; [exact Z0|]. destruct Z0 as [N [J I]].
  intro calls.
  assert (R : forall l, nfev (run w l) = sum (map (@objective_entries Val) l)
                        /\ njev (run w l) = sum (map (gradient_entries w) l)
                        /\ nit (run w l) = last_iter_count l 0%Z).
  { intro l. rewrite run_counters, N, J, I. simpl. auto. }
  destruct (R calls) as [Rn [Rj Ri]].
  repeat split; try assumption;
    destruct (R (calls ++ more)) as [Rn' [Rj' _]];
    rewrite ?Rn, ?Rn', ?Rj, ?Rj', !map_app, !sum_app; lia.
Qed.

(** C7 (amended).  Without a gradient callable, [gradient(x)] returns what
    [approx_fprime] computes at [x] from the caller's objective (with the
    stored extra arguments) and the step [eps] given at construction.  The
    call counts as one gradient evaluation; [nfev] is left as it was, since
    the approximator is handed the objective itself and not the counting
    method [objective]. *)
Theorem gradient_without_jac f args kwargs hess hessp cs eps dims sp row col w :
  __init__ (Separate f JacNone) args kwargs hess hessp cs eps dims sp row col = Ok w ->
  forall calls x kw,
    snd (gradient (run w calls) x kw)
    = approx_fprime x (fun x' _ => Ok (A0 (f x' args (kwargs_or_empty kwargs)))) eps [] []
    /\ njev (fst (gradient (run w calls) x kw)) = njev (run w calls) + 1
    /\ nfev (fst (gradient (run w calls) x kw)) = nfev (run w calls).
Proof.
  intro H. apply init_inv in H.
  destruct H as [_ [_ [fj [jacs [RO [_ W]]]]]].
  simpl in RO. inversion RO; subst fj; clear RO.
  intros calls x kw. rewrite run_counters. subst w. simpl. auto.
Qed.

Lemma foldM_init_raise_msg hess cs : forall fr e,
  (forall c : constraint Val, In c cs -> hessian_mismatch hess (con_hess c) = false) ->
  foldM (init_constraint hess) cs fr = Raise e -> e = NotImplementedError msg_jac.
Proof.
  induction cs as [|c cs IH]; intros fr e NM; simpl; [discriminate|].
  unfold init_constraint at 1.
  destruct (resolve_constraint c) as [[cf cj]|e'] eqn:R; simpl.
  - rewrite (NM c (or_introl eq_refl)). simpl.
    apply IH. intros c' I. apply NM. right. exact I.
  - apply resolve_constraint_raises in R. subst. intro H; inversion H; reflexivity.
Qed.

(** C5.  Construction raises [NotImplementedError] when the objective has a
    Hessian and some constraint has none, and when some constraint has a
    Hessian and the objective has none.  When neither the objective nor any
    constraint has one, the Hessian check never fires, and construction
    succeeds as soon as no Hessian-vector product is given and every ['jac']
    entry is usable. *)
Theorem partial_hessian_is_rejected f args kwargs hess hessp cs eps dims sp row col :
  (hess <> None -> (exists c, In c (as_tuple cs) /\ con_hess c = None) ->
   exists m, __init__ f args kwargs hess hessp cs eps dims sp row col
             = Raise (NotImplementedError m))
  /\ (hess = None -> (exists c, In c (as_tuple cs) /\ con_hess c <> None) ->
      exists m, __init__ f args kwargs hess hessp cs eps dims sp row col
                = Raise (NotImplementedError m))
  /\ (hess = None -> (forall c, In c (as_tuple cs) -> con_hess c = None) ->
      __init__ f args kwargs hess hessp cs eps dims sp row col
        <> Raise (NotImplementedError msg_hess)
      /\ (hessp = None ->
          is_ok (resolve_objective f eps) = true ->
          (forall c, In c (as_tuple cs) -> is_ok (resolve_constraint c) = true) ->
          exists w, __init__ f args kwargs hess hessp cs eps dims sp row col = Ok w)).
Proof.
  split; [|split].
  - intros Hh [c [I N]]. apply init_rejects.
    apply (forallb_false_In _ _ c I). unfold acceptable.
    rewrite N. destruct hess; [|congruence]. simpl. apply andb_false_r.
  - intros Hh [c [I N]]. apply init_rejects.
    apply (forallb_false_In _ _ c I). unfold acceptable.
    subst hess. destruct (con_hess c); [|congruence]. simpl. apply andb_false_r.
  - intros Hh N. subst hess.
    assert (NM : forall c, In c (as_tuple cs) ->
                 hessian_mismatch None (con_hess c) = false).
    { intros c I. rewrite (N c I). reflexivity. }
    split.
    + unfold __init__. simpl.
      destruct hessp as [hp|]; [intro H; inversion H|].
      destruct (resolve_objective f eps) as [fj|e] eqn:RO; simpl.
      * destruct (foldM (init_constraint None) (as_tuple cs) (empty_frame Val))
          as [fr|e] eqn:F; simpl; [discriminate|].
        apply foldM_init_raise_msg in F; [|exact NM]. subst. intro H; inversion H.
      * apply resolve_objective_raises in RO. subst. intro H; inversion H.
    + intros Hp RO RC. subst hessp. apply init_ok; [exact RO|].
      apply forallb_forall. intros c I. unfold acceptable.
      rewrite (RC c I), (NM c I). reflexivity.
Qed.


(** *** Loops and slices *)

Lemma traverse_map {A B C} (g : A -> B) (f : B -> result C) l :
  traverse f (map g l) = traverse (fun a => f (g a)) l.
Proof. induction l as [|a l IH]; simpl; [reflexivity|]. rewrite IH. reflexivity. Qed.

Lemma traverse_Forall2 {A B} (f : A -> result B) l vs :
  Forall2 (fun a v => f a = Ok v) l vs -> traverse f l = Ok vs.
Proof.
  induction 1 as [|a v l vs E _ IH]; simpl; [reflexivity|].
  rewrite E, IH. reflexivity.
Qed.

Lemma traverse_ext {A B} (f g : A -> result B) l :
  (forall a, In a l -> f a = g a) -> traverse f l = traverse g l.
Proof.
  induction l as [|a l IH]; intro E; simpl; [reflexivity|].
  rewrite (E a (or_introl eq_refl)), IH; [reflexivity|].
  intros b I. apply E. right. exact I.
Qed.

Lemma zip3_map {A B C D} (f : A -> B) (g : A -> C) (h : A -> D) l :
  zip3 (map f l) (map g l) (map h l) = map (fun a => (f a, g a, h a)) l.
Proof. unfold zip3. induction l as [|a l IH]; simpl; [reflexivity|]. rewrite IH. reflexivity. Qed.

Lemma length_concat_sum {A} (vs : list (list A)) :
  length (concat vs) = sum (map (@length A) vs).
Proof. induction vs as [|v vs IH]; simpl; [reflexivity|]. rewrite length_app, IH. reflexivity. Qed.

Lemma slice_concat {A} (vs : list (list A)) : forall i v,
  nth_error vs i = Some v ->
  slice (sum (firstn i (map (@length A) vs))) (sum (firstn (S i) (map (@length A) vs)))
    (concat vs) = v.
Proof.
  unfold slice.
  induction vs as [|v0 vs IH]; intros i v H; [destruct i; discriminate|].
  destruct i as [|i].
  - inversion H; subst. simpl. rewrite Nat.add_0_r, Nat.sub_0_r.
    rewrite firstn_app, Nat.sub_diag, firstn_all. simpl. apply app_nil_r.
  - simpl in H. specialize (IH i v H).
    set (p := sum (firstn i (map (@length A) vs))) in *.
    set (q := sum (firstn (S i) (map (@length A) vs))) in *.
    assert (E1 : sum (firstn (S (S i)) (map (@length A) (v0 :: vs))) = length v0 + q)
      by reflexivity.
    assert (E2 : sum (firstn (S i) (map (@length A) (v0 :: vs))) = length v0 + p)
      by reflexivity.
    rewrite E1, E2.
    change (concat (v0 :: vs)) with (v0 ++ concat vs).
    rewrite skipn_app, skipn_all2 by lia.
    replace (length v0 + p - length v0) with p by lia.
    replace (length v0 + q - (length v0 + p)) with (q - p) by lia.
    exact IH.
Qed.

Lemma Forall2_nth_error {A B} (P : A -> B -> Prop) l vs :
  Forall2 P l vs -> forall i a, nth_error l i = Some a ->
  exists v, nth_error vs i = Some v /\ P a v.
Proof.
  induction 1 as [|a v l vs p _ IH]; intros i a' H; [destruct i; discriminate|].
  destruct i as [|i]; simpl in *.
  - inversion H; subst. eauto.
  - apply IH. exact H.
Qed.

Lemma constraints_run (w : IpoptProblemWrapper Val) calls x :
  constraints (run w calls) x = constraints w x.
Proof. rewrite run_counters. reflexivity. Qed.

(** C1 (amended).  For an adapter over a non-empty constraint list,
    [constraints(x)] is the end-to-end concatenation, in list order, of each
    constraint's own function evaluated at [x] with that constraint's own
    extra arguments; its length is the sum of the lengths, and constraint
    [i] occupies the slice between the cumulative lengths before and after
    it, whatever was called before. *)
Theorem constraints_stacks_values f args kwargs hess hessp cs eps dims sp row col w :
  __init__ f args kwargs hess hessp cs eps dims sp row col = Ok w ->
  as_tuple cs <> [] ->
  forall calls x vs,
    Forall2 (fun c v => con_value_fun c x (con_args c) (con_kwargs c) = Ok v)
      (as_tuple cs) vs ->
    constraints (run w calls) x = Ok (concat vs)
    /\ length (concat vs) = sum (map (@length float) vs)
    /\ forall i c, nth_error (as_tuple cs) i = Some c ->
         con_value_fun c x (con_args c) (con_kwargs c)
         = Ok (slice (sum (firstn i (map (@length float) vs)))
                 (sum (firstn (S i) (map (@length float) vs))) (concat vs)).
Proof.
  intros H NE calls x vs F. apply init_inv in H.
  destruct H as [_ [_ [fj [jacs [_ [_ W]]]]]].
  split; [|split].
  - rewrite constraints_run. subst w. unfold constraints. simpl.
    rewrite zip3_map, traverse_map. simpl.
    rewrite (traverse_Forall2 _ _ _ F). simpl.
    destruct vs as [|v vs]; [inversion F; congruence|reflexivity].
  - apply length_concat_sum.
  - intros i c N.
    destruct (Forall2_nth_error _ _ _ F i c N) as [v [Nv E]].
    rewrite (slice_concat vs i v Nv). exact E.
Qed.


(** *** Constraint bounds *)

Lemma scale_ones INF m : scale INF (ones m) = repeat (PrimFloat.mul INF 1%float) m.
Proof. unfold scale, ones. induction m; simpl; [reflexivity|]. rewrite IHm. reflexivity. Qed.

Lemma bounds_loop_ok x0 INF (cs : list (constraint Val)) : forall cl cu,
  (forall c, In c cs -> valid_type c) ->
  foldM (bounds_step x0 INF) cs (cl, cu)
  = Ok (cl ++ concat (map (fun c => repeat 0%float (con_dimension c x0)) cs),
        cu ++ concat (map (fun c => repeat (if String.eqb (con_type c) "eq"
                                             then 0%float else PrimFloat.mul INF 1%float)
                                      (con_dimension c x0)) cs)).
Proof.
  induction cs as [|c cs IH]; intros cl cu V; simpl.
  - rewrite !app_nil_r. reflexivity.
  - unfold bounds_step at 1.
    destruct (String.eqb (con_type c) "eq") eqn:E.
    + simpl. rewrite IH by (intros c' I; apply V; right; exact I).
      rewrite <- !app_assoc. reflexivity.
    + destruct (String.eqb (con_type c) "ineq") eqn:E'.
      * simpl. rewrite IH by (intros c' I; apply V; right; exact I).
        rewrite scale_ones, <- !app_assoc. reflexivity.
      * destruct (V c (or_introl eq_refl)) as [T|T]; rewrite T in *; discriminate.
Qed.

Lemma bounds_loop_raise x0 INF pre (c : constraint Val) post : forall cl cu,
  (forall c', In c' pre -> valid_type c') ->
  con_type c <> "eq" -> con_type c <> "ineq" ->
  foldM (bounds_step x0 INF) (pre ++ c :: post) (cl, cu) = Raise (ValueError (con_type c)).
Proof.
  induction pre as [|p pre IH]; intros cl cu V N1 N2; simpl.
  - unfold bounds_step.
    apply String.eqb_neq in N1, N2. rewrite N1, N2. reflexivity.
  - unfold bounds_step at 1.
    destruct (V p (or_introl eq_refl)) as [T|T]; rewrite T; simpl;
      apply IH; auto; intros c' I; apply V; right; exact I.
Qed.

Lemma all_ineq_bounds x0 (l : list (constraint Val)) :
  (forall c, In c l -> con_type c = "ineq") ->
  Forall (eq 0%float) (concat (map (fun c => repeat 0%float (con_dimension c x0)) l))
  /\ Forall (eq 1e19%float)
       (concat (map (fun c => repeat (if String.eqb (con_type c) "eq"
                                      then 0%float else 1e19%float)
                                (con_dimension c x0)) l))
  /\ length (concat (map (fun c => repeat 0%float (con_dimension c x0)) l))
     = length (concat (map (fun c => repeat (if String.eqb (con_type c) "eq"
                                             then 0%float else 1e19%float)
                                       (con_dimension c x0)) l)).
Proof.
  induction l as [|c l IH]; intro A; simpl.
  - repeat split; constructor.
  - assert (A' : forall c', In c' l -> con_type c' = "ineq")
      by (intros c' I; apply A; right; exact I).
    destruct (IH A') as [F0 [F1 L]].
    rewrite (A c (or_introl eq_refl)). simpl.
    repeat split.
    + apply Forall_app. split; [|exact F0].
      apply Forall_forall. intros a I. apply repeat_spec in I. congruence.
    + apply Forall_app. split; [|exact F1].
      apply Forall_forall. intros a I. apply repeat_spec in I. congruence.
    + rewrite !length_app, !repeat_length, L. reflexivity.
Qed.

(** C4.  The bound assembly gives every constraint as many zeros as it has
    values for the lower bound, and for the upper bound as many zeros for
    ['eq'] and as many copies of [1e19] for ['ineq']; the first constraint
    whose type is neither raises [ValueError] with that type.  So the two
    bounds coincide when all constraints are equalities, and for
    inequalities only the lower one is all zero and the upper one all
    [1e19]. *)
Theorem constraint_bounds_by_type (cs : constraints_arg Val) (x0 : vec) :
  ((forall c, In c (as_tuple cs) -> valid_type c) ->
   get_constraint_bounds cs x0 INF_default
   = Ok (concat (map (fun c => repeat 0%float (con_dimension c x0)) (as_tuple cs)),
         concat (map (fun c => repeat (if String.eqb (con_type c) "eq"
                                       then 0%float else 1e19%float)
                                 (con_dimension c x0)) (as_tuple cs))))
  /\ (forall pre c post,
        as_tuple cs = pre ++ c :: post ->
        (forall c', In c' pre -> valid_type c') ->
        con_type c <> "eq" -> con_type c <> "ineq" ->
        get_constraint_bounds cs x0 INF_default = Raise (ValueError (con_type c)))
  /\ ((forall c, In c (as_tuple cs) -> con_type c = "eq") ->
      exists cl, get_constraint_bounds cs x0 INF_default = Ok (cl, cl))
  /\ ((forall c, In c (as_tuple cs) -> con_type c = "ineq") ->
      exists cl cu,
        get_constraint_bounds cs x0 INF_default = Ok (cl, cu)
        /\ Forall (eq 0%float) cl /\ Forall (eq 1e19%float) cu
        /\ length cl = length cu).
Proof.
  assert (OK : (forall c, In c (as_tuple cs) -> valid_type c) ->
   get_constraint_bounds cs x0 INF_default
   = Ok (concat (map (fun c => repeat 0%float (con_dimension c x0)) (as_tuple cs)),
         concat (map (fun c => repeat (if String.eqb (con_type c) "eq"
                                       then 0%float else 1e19%float)
                                 (con_dimension c x0)) (as_tuple cs)))).
  { intro V. unfold get_constraint_bounds. rewrite bounds_loop_ok by exact V. reflexivity. }
  split; [exact OK|]. split; [|split].
  - intros pre c post E V N1 N2. unfold get_constraint_bounds. rewrite E.
    apply bounds_loop_raise; assumption.
  - intro A. rewrite OK by (intros c I; left; apply A; exact I).
    exists (concat (map (fun c => repeat 0%float (con_dimension c x0)) (as_tuple cs))).
    rewrite (map_ext_in
               (fun c => repeat (if String.eqb (con_type c) "eq" then 0%float else 1e19%float)
                           (con_dimension c x0))
               (fun c => repeat 0%float (con_dimension c x0))); [reflexivity|].
    intros c I. rewrite (A c I). reflexivity.
  - intro A. rewrite OK by (intros c I; right; apply A; exact I).
    do 2 eexists. split; [reflexivity|]. apply all_ineq_bounds. exact A.
Qed.


(** *** The Hessian of the Lagrangian *)

Lemma split_concat {A} (segs : list (list A)) : forall p : list A,
  segs <> [] ->
  split_from (length p) (cumsum_from (length p) (removelast (map (@length A) segs)))
    (p ++ concat segs) = segs.
Proof.
  induction segs as [|s segs IH]; intros p NE; [congruence|].
  destruct segs as [|s' segs].
  - simpl. rewrite app_nil_r, skipn_app, skipn_all, Nat.sub_diag. reflexivity.
  - change (removelast (map (@length A) (s :: s' :: segs)))
      with (length s :: removelast (map (@length A) (s' :: segs))).
    change (concat (s :: s' :: segs)) with (s ++ concat (s' :: segs)).
    simpl cumsum_from. simpl split_from. f_equal.
    + unfold slice. rewrite skipn_app, skipn_all, Nat.sub_diag. simpl.
      replace (length p + length s - length p) with (length s) by lia.
      rewrite firstn_app, Nat.sub_diag, firstn_all. simpl. apply app_nil_r.
    + rewrite <- length_app, app_assoc. apply IH. discriminate.
Qed.

Lemma split_segments {A} (segs : list (list A)) :
  segs <> [] ->
  split (concat segs) (cumsum (removelast (map (@length A) segs))) = segs.
Proof. intro NE. exact (split_concat segs [] NE). Qed.

Lemma vec_iadd_ok : forall (u v : vec) c,
  length u = c -> length v = c ->
  exists w, vec_iadd u v = Ok w /\ length w = c
            /\ forall j, j < c ->
                 nth j w 0%float = PrimFloat.add (nth j u 0%float) (nth j v 0%float).
Proof.
  induction u as [|a u IH]; intros [|b v] c Lu Lv; simpl in *; try lia.
  - exists []. subst. repeat split. intros j Hj. lia.
  - destruct c as [|c]; [lia|].
    destruct (IH v c) as [w [E [L N]]]; try lia.
    rewrite E. simpl. exists (PrimFloat.add a b :: w). repeat split.
    + simpl. lia.
    + intros [|j] Hj; simpl; [reflexivity|]. apply N. lia.
Qed.

Lemma iadd_ok : forall (H G : mat) r c,
  rect r c H -> rect r c G ->
  exists K, iadd H G = Ok K /\ rect r c K
            /\ forall i j, i < r -> j < c ->
                 entry K i j = PrimFloat.add (entry H i j) (entry G i j).
Proof.
  induction H as [|u H IH]; intros [|v G] r c [LH FH] [LG FG]; simpl in *; try lia.
  - exists []. subst. repeat split; [constructor|]. intros i j Hi. lia.
  - destruct r as [|r]; [lia|].
    inversion FH as [|? ? Lu FH']; subst.
    inversion FG as [|? ? Lv FG']; subst.
    destruct (vec_iadd_ok u v (length u) eq_refl Lv) as [w [E [L N]]].
    destruct (IH G r (length u)) as [K [EK [[LK FK] NK]]];
      [split; [lia|assumption] | split; [lia|assumption] |].
    rewrite E, EK. simpl. exists (w :: K). repeat split.
    + simpl. lia.
    + constructor; assumption.
    + intros [|i] j Hi Hj; unfold entry; simpl.
      * apply N. exact Hj.
      * apply NK; lia.
Qed.

Lemma scale2_rect a M r c :
  rect r c M ->
  rect r c (scale2 a M)
  /\ forall i j, i < r -> j < c ->
       entry (scale2 a M) i j = PrimFloat.mul a (entry M i j).
Proof.
  intros [L F]. split; [split|].
  - unfold scale2. rewrite length_map. exact L.
  - unfold scale2, scale. apply Forall_map. eapply Forall_impl; [|exact F].
    intros row Lr. simpl. rewrite length_map. exact Lr.
  - intros i j Hi Hj. unfold entry.
    assert (Li : length (nth i M []) = c).
    { rewrite Forall_forall in F. apply F. apply nth_In. lia. }
    assert (E : nth i (scale2 a M) [] = scale a (nth i M []))
      by exact (map_nth (scale a) M [] i).
    rewrite E. unfold scale.
    rewrite (nth_indep _ 0%float (PrimFloat.mul a 0%float)) by (rewrite length_map; lia).
    apply map_nth.
Qed.

Lemma zip4_map {A B C D E} (f : A -> B) (g : A -> C) (h : A -> D) (l : list A) (l' : list E) :
  zip4 (map f l) (map g l) (map h l) l'
  = map (fun al => (f (fst al), g (fst al), h (fst al), snd al)) (combine l l').
Proof.
  unfold zip4. rewrite zip3_map.
  revert l'. induction l as [|a l IH]; intros [|b l']; simpl; try reflexivity.
  rewrite IH. reflexivity.
Qed.

Lemma hessian_loop (x : vec) n (cs : list (constraint Val)) segs :
  Forall2 (fun c seg => exists g, con_hess c = Some g
                        /\ square n (g x seg (con_args c) (con_kwargs c))) cs segs ->
  forall H, rect n n H ->
  exists K,
    foldM (hessian_add x)
      (map (fun al : constraint Val * vec =>
              (con_hess (fst al), con_args (fst al), con_kwargs (fst al), snd al))
         (combine cs segs)) H = Ok K
    /\ rect n n K
    /\ forall i j, i < n -> j < n ->
         entry K i j
         = fold_left (fun acc G => PrimFloat.add acc (entry G i j))
             (constraint_hessians x cs segs) (entry H i j).
Proof.
  induction 1 as [|c seg cs segs [g [Eg Sg]] F IH]; intros H R.
  - exists H. repeat split; apply R.
  - destruct (iadd_ok H (g x seg (con_args c) (con_kwargs c)) n n R Sg) as [K [EK [RK NK]]].
    destruct (IH K RK) as [K' [EK' [RK' NK']]].
    exists K'. split; [|split; [exact RK'|]].
    + simpl. rewrite Eg. simpl. rewrite EK. simpl. exact EK'.
    + intros i j Hi Hj. rewrite (NK' i j Hi Hj), (NK i j Hi Hj).
      unfold constraint_hessians. simpl. rewrite Eg. reflexivity.
Qed.


Lemma tril_indices_S n :
  tril_indices (S n) = tril_indices n ++ map (fun j => (n, j)) (seq 0 (S n)).
Proof.
  unfold tril_indices. rewrite seq_S at 1. rewrite flat_map_app. f_equal.
  change (0 + n) with n. unfold flat_map. apply app_nil_r.
Qed.

Lemma length_tril_double n : 2 * length (tril_indices n) = n * (n + 1).
Proof.
  induction n as [|n IH]; [reflexivity|].
  rewrite tril_indices_S, length_app, length_map, length_seq. lia.
Qed.

Lemma length_tril n : length (tril_indices n) = n * (n + 1) / 2.
Proof.
  apply Nat.div_unique_exact; [discriminate|]. symmetry. apply length_tril_double.
Qed.

Lemma tril_indices_split i n :
  i < n ->
  exists rest,
    tril_indices n = tril_indices i ++ map (fun j => (i, j)) (seq 0 (S i)) ++ rest.
Proof.
  induction n as [|n IH]; intro Hi; [lia|].
  rewrite tril_indices_S.
  destruct (Nat.eq_dec i n) as [->|NE].
  - exists []. rewrite app_nil_r. reflexivity.
  - destruct IH as [rest E]; [lia|]. rewrite E.
    exists (rest ++ map (fun j => (n, j)) (seq 0 (S n))).
    rewrite <- !app_assoc. reflexivity.
Qed.

Lemma nth_error_tril n i j :
  j <= i -> i < n ->
  nth_error (tril_indices n) (i * (i + 1) / 2 + j) = Some (i, j).
Proof.
  intros Hj Hi. destruct (tril_indices_split i n Hi) as [rest E].
  rewrite E, <- length_tril.
  rewrite nth_error_app2 by lia.
  replace (length (tril_indices i) + j - length (tril_indices i)) with j by lia.
  rewrite nth_error_app1 by (rewrite length_map, length_seq; lia).
  rewrite nth_error_map, nth_error_nth' with (d := 0) by (rewrite length_seq; lia).
  rewrite seq_nth by lia. reflexivity.
Qed.

Lemma in_tril_indices n i j : In (i, j) (tril_indices n) -> j <= i /\ i < n.
Proof.
  unfold tril_indices. rewrite in_flat_map. intros [k [Hk Hin]].
  apply in_seq in Hk. apply in_map_iff in Hin. destruct Hin as [j' [E Hj']].
  inversion E; subst. apply in_seq in Hj'. lia.
Qed.

Lemma traverse_ok {A B} (f : A -> result B) (g : A -> B) l :
  (forall a, In a l -> f a = Ok (g a)) -> traverse f l = Ok (map g l).
Proof.
  induction l as [|a l IH]; intro E; simpl; [reflexivity|].
  rewrite (E a (or_introl eq_refl)), IH; [reflexivity|].
  intros b I. apply E. right. exact I.
Qed.

Lemma item_entry n (H : mat) i j :
  rect n n H -> i < n -> j < n -> item H (i, j) = Ok (entry H i j).
Proof.
  intros [L F] Hi Hj. unfold item, entry. simpl.
  rewrite (@nth_error_nth' vec H i []) by lia.
  assert (Li : length (nth i H []) = n).
  { rewrite Forall_forall in F. apply F. apply nth_In. lia. }
  rewrite (@nth_error_nth' float (nth i H []) j 0%float) by lia. reflexivity.
Qed.

Lemma take_tril n (H : mat) :
  rect n n H ->
  take H (tril_indices n) = Ok (map (fun ij => entry H (fst ij) (snd ij)) (tril_indices n)).
Proof.
  intro R. unfold take. apply traverse_ok.
  intros [i j] I. apply in_tril_indices in I. simpl.
  apply (item_entry n); [exact R|lia|lia].
Qed.

Lemma hessian_run (w : IpoptProblemWrapper Val) calls x lagrange obj_factor :
  hessian (run w calls) x lagrange obj_factor = hessian w x lagrange obj_factor.
Proof. rewrite run_counters. reflexivity. Qed.

(** C3.  For an adapter with an objective Hessian and a Hessian for every
    constraint, where the multiplier vector is the concatenation of
    per-constraint segments whose lengths are the constraint dimensions given
    at construction and all Hessians are [n] by [n] for [n = len(x)]:
    [hessian] returns a vector of length [n(n+1)/2] whose entry at position
    [i(i+1)/2 + j] (row [i], column [j <= i]: the lower triangle, row by
    row) is [obj_factor] times the objective Hessian's entry plus the
    entries of the constraint Hessians, each evaluated at [x] and its own
    segment. *)
Theorem hessian_packs_lower_triangle f args kwargs h hessp cs eps ds sp row col w :
  __init__ f args kwargs (Some h) hessp cs eps ds sp row col = Ok w ->
  forall calls x obj_factor segs,
    map (@length float) segs = ds ->
    square (length x) (h x args (kwargs_or_empty kwargs)) ->
    Forall2 (fun c seg => exists g, con_hess c = Some g
                          /\ square (length x) (g x seg (con_args c) (con_kwargs c)))
      (as_tuple cs) segs ->
    exists r,
      hessian (run w calls) x (concat segs) obj_factor = Ok r
      /\ length r = length x * (length x + 1) / 2
      /\ forall i j, j <= i -> i < length x ->
           nth_error r (i * (i + 1) / 2 + j)
           = Some (lagrangian_entry obj_factor (h x args (kwargs_or_empty kwargs))
                     (constraint_hessians x (as_tuple cs) segs) i j).
Proof.
  intros H calls x obj_factor segs Ds Sq F. apply init_inv in H.
  destruct H as [_ [_ [fj [jacs [_ [_ W]]]]]].
  set (n := length x) in *.
  set (H0 := h x args (kwargs_or_empty kwargs)) in *.
  destruct (scale2_rect obj_factor H0 n n Sq) as [R0 N0].
  destruct (hessian_loop x n (as_tuple cs) segs F (scale2 obj_factor H0) R0)
    as [K [EK [RK NK]]].
  exists (map (fun ij => entry K (fst ij) (snd ij)) (tril_indices n)).
  split; [|split].
  - rewrite hessian_run. subst w. unfold hessian. simpl.
    fold H0. rewrite zip4_map.
    assert (S : combine (as_tuple cs)
                  (split (concat segs) (cumsum (removelast ds)))
                = combine (as_tuple cs) segs).
    { destruct segs as [|s segs].
      - inversion F. reflexivity.
      - rewrite <- Ds, split_segments by discriminate. reflexivity. }
    rewrite S.
    match goal with
    | |- bind ?e _ = _ => assert (EE : e = Ok K) by exact EK; rewrite EE
    end.
    simpl. fold n. apply take_tril. exact RK.
  - rewrite length_map. apply length_tril.
  - intros i j Hj Hi.
    rewrite nth_error_map, (nth_error_tril n i j Hj Hi). simpl.
    rewrite NK, N0 by lia. reflexivity.
Qed.


(** *** The driver *)

Context {minimizer : Minimizer Val} {cyipopt : Cyipopt Val} {formatting : Formatting}.

Lemma wrap_fun_baked {P T} (f : vec -> P -> Kwargs Val -> T) kwargs :
  _wrap_fun f kwargs = baked f (kwargs_or_empty kwargs).
Proof. destruct kwargs as [[|kw kws]|]; reflexivity. Qed.

Lemma wrap_fun_jac_baked {V J} (fj : fun_jac (Callable Val) V J) kwargs :
  _wrap_fun_jac fj kwargs = baked_fun_jac fj (kwargs_or_empty kwargs).
Proof.
  destruct fj as [f [| |j|t]|fg]; simpl; rewrite ?wrap_fun_baked; reflexivity.
Qed.

Lemma wrap_constraint_baked (c : constraint Val) :
  _wrap_constraint c = baked_constraint c.
Proof.
  unfold _wrap_constraint, baked_constraint. rewrite wrap_fun_jac_baked. reflexivity.
Qed.

Lemma delegated_call (r1 r2 : minimize_call Val (@Callback Val minimizer)) :
  r1 = r2 ->
  tbind (call Call_minimize (minimize r1)) (fun res => ret (Delegated res))
  = ([Call_minimize], fmap (@Delegated Val minimizer) (minimize r2)).
Proof.
  intros <-. unfold tbind, call, ret, fmap, bind. destruct (minimize r1); reflexivity.
Qed.

(** C8.  With a method name, the driver makes exactly one call, to
    [minimize], and returns what it returns (a result or an exception).  The
    call gets the objective, gradient, Hessian and Hessian-vector product
    with the driver's keyword arguments baked in, each constraint's function
    and Jacobian with that constraint's keyword arguments baked in, and all
    other arguments as given.  No structure builder, no adapter and no
    solver handle appears among the calls. *)
Theorem method_delegates_to_minimize fun_ x0 args kwargs method hess hessp bounds
    cs tol callback options :
  minimize_ipopt fun_ x0 args kwargs (Some method) hess hessp bounds cs tol callback options
  = ([Call_minimize],
     fmap (@Delegated Val minimizer)
       (minimize
          {| mc_fun := baked_fun_jac fun_ (kwargs_or_empty kwargs);
             mc_x0 := x0;
             mc_args := args;
             mc_method := method;
             mc_hess := option_map (fun h => baked h (kwargs_or_empty kwargs)) hess;
             mc_hessp := option_map (fun h => baked h (kwargs_or_empty kwargs)) hessp;
             mc_bounds := bounds;
             mc_constraints := map (@baked_constraint Val) (as_tuple cs);
             mc_tol := tol;
             mc_callback := callback;
             mc_options := options |})).
Proof.
  unfold minimize_ipopt, _wrap_funs. simpl.
  rewrite wrap_fun_jac_baked.
  rewrite (map_ext _ _ wrap_constraint_baked).
  apply delegated_call.
  destruct kwargs as [[|kw kws]|], hess as [h|], hessp as [hp|]; reflexivity.
Qed.


Lemma jac_false_unacceptable hess (c : constraint Val) f' :
  con_fun_jac c = Separate f' JacFalse -> acceptable hess c = false.
Proof. intro E. unfold acceptable, resolve_constraint. rewrite E. reflexivity. Qed.

Lemma foldM_init_first_jac hess pre (c : constraint Val) post f' : forall fr,
  forallb (acceptable hess) pre = true ->
  con_fun_jac c = Separate f' JacFalse ->
  foldM (init_constraint hess) (pre ++ c :: post) fr = Raise (NotImplementedError msg_jac).
Proof.
  induction pre as [|p pre IH]; intros fr A E; simpl.
  - unfold init_constraint, resolve_constraint. rewrite E. reflexivity.
  - simpl in A. apply andb_true_iff in A. destruct A as [Ap A].
    destruct (init_constraint_ok hess fr p Ap) as [fj [_ Ei]]. rewrite Ei. simpl.
    apply IH; assumption.
Qed.

Lemma native_fails_at_adapter fun_ x0 args kwargs hess hessp bounds cs tol callback options
    clcu s m :
  get_constraint_bounds cs (atleast_1d x0) INF_default = Ok clcu ->
  _get_sparse_jacobian_structure cs (atleast_1d x0) = Ok s ->
  __init__ fun_ args kwargs hess hessp cs 1e-8%float
    (get_constraint_dimensions cs (atleast_1d x0)) (fst (fst s)) (snd (fst s)) (snd s)
  = Raise (NotImplementedError m) ->
  minimize_ipopt fun_ x0 args kwargs None hess hessp bounds cs tol callback options
  = (native_trace_to_adapter, Raise (NotImplementedError m)).
Proof.
  intros B S I. unfold minimize_ipopt. simpl.
  rewrite B. destruct clcu as [cl cu]. simpl.
  rewrite S. destruct s as [[sp row] col]. simpl in *.
  rewrite I. destruct (get_bounds bounds). reflexivity.
Qed.

Lemma structure_of_single_false x0 (c : constraint Val) f' :
  con_fun_jac c = Separate f' JacFalse ->
  is_ok (_get_sparse_jacobian_structure (Dict c) x0) = true.
Proof.
  intro E. unfold _get_sparse_jacobian_structure. simpl.
  unfold probe_constraint. rewrite E. simpl.
  unfold vstack. simpl. rewrite Nat.eqb_refl. reflexivity.
Qed.

(** C10.  A constraint whose ['jac'] entry is [False] makes the construction
    of the adapter raise [NotImplementedError]; the message is the one about
    ['jac'] when no Hessian-vector product is given, the objective's ['jac']
    is usable and no earlier constraint is rejected.  The structure probe
    and the dimension probe treat that entry exactly like an absent one.  So
    the driver, on the native path and with nothing else wrong (type tags
    known, structure probe completing), fails at the construction of the
    adapter with that error, after all four builders have run; for a single
    such constraint dict with a known type tag this needs no further
    condition on the constraint.  Whatever else is wrong, the native path
    with such a constraint never returns a result, and whenever the bound
    assembly and the structure probe complete it fails at the construction
    of the adapter with [NotImplementedError]. *)
Theorem jac_false_fails_at_construction (c : constraint Val) f' :
  con_fun_jac c = Separate f' JacFalse ->
  (forall fun_ args kwargs hess hessp cs eps dims sp row col,
     In c (as_tuple cs) ->
     exists m, __init__ fun_ args kwargs hess hessp cs eps dims sp row col
               = Raise (NotImplementedError m))
  /\ (forall fun_ args kwargs hess cs eps dims sp row col pre post,
        as_tuple cs = pre ++ c :: post ->
        is_ok (resolve_objective fun_ eps) = true ->
        forallb (acceptable hess) pre = true ->
        __init__ fun_ args kwargs hess None cs eps dims sp row col
        = Raise (NotImplementedError msg_jac))
  /\ (forall x0,
        let absent := {| con_fun_jac := Separate f' JacNone; con_type := con_type c;
                         con_args := con_args c; con_kwargs := con_kwargs c;
                         con_hess := con_hess c |} in
        probe_constraint x0 c = probe_constraint x0 absent
        /\ con_dimension c x0 = con_dimension absent x0)
  /\ (forall fun_ x0 args kwargs hess bounds cs tol callback options pre post,
        as_tuple cs = pre ++ c :: post ->
        is_ok (resolve_objective fun_ 1e-8%float) = true ->
        forallb (acceptable hess) pre = true ->
        (forall c', In c' (as_tuple cs) -> valid_type c') ->
        is_ok (_get_sparse_jacobian_structure cs (atleast_1d x0)) = true ->
        minimize_ipopt fun_ x0 args kwargs None hess None bounds cs tol callback options
        = (native_trace_to_adapter, Raise (NotImplementedError msg_jac)))
  /\ (forall fun_ x0 args kwargs hess bounds tol callback options,
        valid_type c ->
        is_ok (resolve_objective fun_ 1e-8%float) = true ->
        minimize_ipopt fun_ x0 args kwargs None hess None bounds (Dict c) tol callback
          options
        = (native_trace_to_adapter, Raise (NotImplementedError msg_jac)))
  /\ (forall fun_ x0 args kwargs hess hessp bounds cs tol callback options,
        In c (as_tuple cs) ->
        (exists t e,
           minimize_ipopt fun_ x0 args kwargs None hess hessp bounds cs tol callback options
           = (t, Raise e))
        /\ (forall clcu s,
              get_constraint_bounds cs (atleast_1d x0) INF_default = Ok clcu ->
              _get_sparse_jacobian_structure cs (atleast_1d x0) = Ok s ->
              exists m,
                minimize_ipopt fun_ x0 args kwargs None hess hessp bounds cs tol
                  callback options
                = (native_trace_to_adapter, Raise (NotImplementedError m)))).
Proof.
  intro E.
  assert (R : forall fun_ args kwargs hess hessp cs eps dims sp row col,
     In c (as_tuple cs) ->
     exists m, __init__ fun_ args kwargs hess hessp cs eps dims sp row col
               = Raise (NotImplementedError m)).
  { intros. apply init_rejects. apply (forallb_false_In _ _ c); [assumption|].
    apply (jac_false_unacceptable _ _ _ E). }
  assert (M : forall fun_ args kwargs hess cs eps dims sp row col pre post,
        as_tuple cs = pre ++ c :: post ->
        is_ok (resolve_objective fun_ eps) = true ->
        forallb (acceptable hess) pre = true ->
        __init__ fun_ args kwargs hess None cs eps dims sp row col
        = Raise (NotImplementedError msg_jac)).
  { intros fun_ args kwargs hess cs eps dims sp row col pre post Ecs RO A.
    unfold __init__. simpl.
    destruct (resolve_objective fun_ eps) as [fj|e]; [|discriminate]. simpl.
    rewrite Ecs, (foldM_init_first_jac hess pre c post f' _ A E). reflexivity. }
  assert (D : forall fun_ x0 args kwargs hess bounds cs tol callback options pre post,
        as_tuple cs = pre ++ c :: post ->
        is_ok (resolve_objective fun_ 1e-8%float) = true ->
        forallb (acceptable hess) pre = true ->
        (forall c', In c' (as_tuple cs) -> valid_type c') ->
        is_ok (_get_sparse_jacobian_structure cs (atleast_1d x0)) = true ->
        minimize_ipopt fun_ x0 args kwargs None hess None bounds cs tol callback options
        = (native_trace_to_adapter, Raise (NotImplementedError msg_jac))).
  { intros fun_ x0 args kwargs hess bounds cs tol callback options pre post Ecs RO A V S.
    destruct (_get_sparse_jacobian_structure cs (atleast_1d x0)) as [s|e] eqn:Es;
      [|discriminate].
    eapply native_fails_at_adapter.
    - unfold get_constraint_bounds. apply bounds_loop_ok. exact V.
    - exact Es.
    - apply (M _ _ _ _ _ _ _ _ _ _ pre post Ecs RO A). }
  split; [exact R|]. split; [exact M|]. split; [|split; [exact D|split]].
  - intro x0. unfold probe_constraint, con_dimension. rewrite E. simpl. auto.
  - intros fun_ x0 args kwargs hess bounds tol callback options V RO.
    apply (D _ _ _ _ _ _ (Dict c) _ _ _ [] []); try reflexivity; try assumption.
    + intros c' [<-|[]]. exact V.
    + apply (structure_of_single_false _ _ f' E).
  - intros fun_ x0 args kwargs hess hessp bounds cs tol callback options I.
    assert (S2 : forall clcu s,
              get_constraint_bounds cs (atleast_1d x0) INF_default = Ok clcu ->
              _get_sparse_jacobian_structure cs (atleast_1d x0) = Ok s ->
              exists m,
                minimize_ipopt fun_ x0 args kwargs None hess hessp bounds cs tol
                  callback options
                = (native_trace_to_adapter, Raise (NotImplementedError m))).
    { intros clcu s B S.
      destruct (R fun_ args kwargs hess hessp cs 1e-8%float
                  (get_constraint_dimensions cs (atleast_1d x0))
                  (fst (fst s)) (snd (fst s)) (snd s) I) as [m Em].
      exists m. apply (native_fails_at_adapter _ _ _ _ _ _ _ _ _ _ _ clcu s m B S Em). }
    split; [|exact S2].
    destruct (get_constraint_bounds cs (atleast_1d x0) INF_default) as [clcu|e] eqn:B.
    + destruct (_get_sparse_jacobian_structure cs (atleast_1d x0)) as [s|e] eqn:S.
      * destruct (S2 clcu s eq_refl eq_refl) as [m Em]. eauto.
      * unfold minimize_ipopt. simpl. rewrite B. destruct clcu as [cl cu]. simpl.
        rewrite S. destruct (get_bounds bounds). simpl. eauto.
    + unfold minimize_ipopt. simpl. rewrite B. destruct (get_bounds bounds). simpl. eauto.
Qed.


(** *** The constraint Jacobian *)













Lemma last_map_snoc {A B} (f : A -> B) pre a d : last (map f (pre ++ [a])) d = f a.
Proof.
  rewrite map_app. simpl. induction (map f pre) as [|b l IH]; [reflexivity|].
  destruct l; [reflexivity|]. exact IH.
Qed.





End Properties.

Section Options.
Variable Val : Type.
Context {scipy : SciPy Val}.
Context {minimizer : Minimizer Val} {cyipopt : Cyipopt Val} {formatting : Formatting}.

Lemma translate_options_steps options tol (hess : option (Callable Val mat))
    (hessp : option (Hessp Val)) :
  translate_options options tol hess hessp
  = let o := replace_option (convert_to_bytes options) (KBytes "disp") (KBytes "print_level") in
    let o := replace_option o (KBytes "maxiter") (KBytes "max_iter") in
    let o := set_default o (KBytes "print_level") (VInt 0) in
    let o := set_default o (KBytes "tol") (VFloat (tol_or_default tol)) in
    let o := set_default o (KBytes "mu_strategy") (VBytes "adaptive") in
    match hess, hessp with
    | None, None => set_default o (KBytes "hessian_approximation") (VBytes "limited-memory")
    | _, _ => o
    end.
Proof.
  unfold translate_options, set_default. cbv zeta.
  destruct hess, hessp;
    match goal with
    | |- context [negb (dict_mem ?d (KBytes "hessian_approximation"))] =>
        destruct (negb (dict_mem d (KBytes "hessian_approximation")))
    end; reflexivity.
Qed.

Ltac other_key := intro other_key_H; inversion other_key_H.

Lemma apply_options_ok : forall items nlp nlp',
  foldM (fun n kv => add_option n (fst kv) (snd kv)) items nlp = Ok nlp' ->
  apply_options nlp items = (option_events items, Ok nlp').
Proof.
  induction items as [|[k v] items IH]; intros nlp nlp' F; simpl in *.
  - inversion F. reflexivity.
  - destruct (add_option nlp k v) as [n1|e] eqn:E; simpl in F; [|discriminate].
    unfold tbind, call. rewrite (IH n1 nlp' F). reflexivity.
Qed.

Lemma apply_options_rejected : forall pre nlp nlp1 k v e post,
  foldM (fun n kv => add_option n (fst kv) (snd kv)) pre nlp = Ok nlp1 ->
  add_option nlp1 k v = Raise (TypeError e) ->
  apply_options nlp (pre ++ (k, v) :: post)
  = (option_events (pre ++ [(k, v)]),
     Raise (TypeError (invalid_option_message k v e))).
Proof.
  induction pre as [|[k0 v0] pre IH]; intros nlp nlp1 k v e post F R; simpl in *.
  - inversion F; subst. unfold tbind, call. rewrite R. reflexivity.
  - destruct (add_option nlp k0 v0) as [n1|e0] eqn:E; simpl in F; [|discriminate].
    unfold tbind, call. rewrite (IH n1 nlp1 k v e post F R). reflexivity.
Qed.

(** C9 (amended).  On the native path the option dict, with its names
    converted to bytes, is translated as follows.  ['disp'] is moved under
    ['print_level'] and ['maxiter'] under ['max_iter'], but only when the new
    name is not given as well: otherwise the old name stays and is applied
    as it is.  Missing names get defaults: ['print_level'] 0, ['tol'] the
    driver's [tol] argument when that is given and not zero and [1e-8]
    otherwise, ['mu_strategy'] ['adaptive'], and ['hessian_approximation']
    ['limited-memory'] exactly when neither a Hessian nor a Hessian-vector
    product was supplied.  Every other name is left alone.  The options are
    applied in order; the first one that the solver rejects with a
    [TypeError] raises a [TypeError] whose message holds the name, the value
    and the solver's message, and the later ones are not applied. *)
Theorem options_are_translated options tol (hess : option (Callable Val mat))
    (hessp : option (Hessp Val)) :
  NoDup (keys options) ->
  let o := convert_to_bytes options in
  let t := translate_options options tol hess hessp in
  dict_get t (KBytes "print_level")
  = Some (match dict_get o (KBytes "print_level") with
          | Some v => v
          | None => match dict_get o (KBytes "disp") with Some v => v | None => VInt 0 end
          end)
  /\ dict_get t (KBytes "disp")
     = match dict_get o (KBytes "print_level") with
       | Some _ => dict_get o (KBytes "disp")
       | None => None
       end
  /\ dict_get t (KBytes "max_iter")
     = match dict_get o (KBytes "max_iter") with
       | Some v => Some v
       | None => dict_get o (KBytes "maxiter")
       end
  /\ dict_get t (KBytes "maxiter")
     = match dict_get o (KBytes "max_iter") with
       | Some _ => dict_get o (KBytes "maxiter")
       | None => None
       end
  /\ dict_get t (KBytes "tol")
     = Some (match dict_get o (KBytes "tol") with
             | Some v => v
             | None => VFloat (tol_or_default tol)
             end)
  /\ dict_get t (KBytes "mu_strategy")
     = Some (match dict_get o (KBytes "mu_strategy") with
             | Some v => v
             | None => VBytes "adaptive"
             end)
  /\ dict_get t (KBytes "hessian_approximation")
     = match dict_get o (KBytes "hessian_approximation"), hess, hessp with
       | Some v, _, _ => Some v
       | None, None, None => Some (VBytes "limited-memory")
       | None, _, _ => None
       end
  /\ (forall k,
        ~ In k [KBytes "disp"; KBytes "print_level"; KBytes "maxiter"; KBytes "max_iter";
                KBytes "tol"; KBytes "mu_strategy"; KBytes "hessian_approximation"] ->
        dict_get t k = dict_get o k)
  /\ (forall nlp nlp',
        foldM (fun n kv => add_option n (fst kv) (snd kv)) t nlp = Ok nlp' ->
        apply_options nlp t = (option_events t, Ok nlp'))
  /\ (forall pre k v post nlp nlp1 e,
        t = pre ++ (k, v) :: post ->
        foldM (fun n kv => add_option n (fst kv) (snd kv)) pre nlp = Ok nlp1 ->
        add_option nlp1 k v = Raise (TypeError e) ->
        apply_options nlp t
        = (option_events (pre ++ [(k, v)]),
           Raise (TypeError (invalid_option_message k v e)))).
Proof.
  intros ND o t.
  assert (NDo : NoDup (keys o)) by (apply NoDup_convert_to_bytes; exact ND).
  assert (ND1 : NoDup (keys (replace_option o (KBytes "disp") (KBytes "print_level"))))
    by (apply NoDup_replace_option; exact NDo).
  subst t. rewrite translate_options_steps. cbv zeta. fold o.
  repeat split.
  - destruct hess, hessp; rewrite ?set_default_other by other_key;
      rewrite set_default_same, replace_option_other, replace_option_new by other_key;
      destruct (dict_get o (KBytes "print_level")); reflexivity.
  - destruct hess, hessp; rewrite ?set_default_other by other_key;
      rewrite replace_option_other, replace_option_old by (try other_key; assumption);
      reflexivity.
  - destruct hess, hessp; rewrite ?set_default_other by other_key;
      rewrite replace_option_new, !replace_option_other by other_key; reflexivity.
  - destruct hess, hessp; rewrite ?set_default_other by other_key;
      rewrite replace_option_old, !replace_option_other by (try other_key; assumption);
      reflexivity.
  - destruct hess, hessp; rewrite ?set_default_other by other_key;
      rewrite set_default_same, ?set_default_other, !replace_option_other by other_key;
      reflexivity.
  - destruct hess, hessp; rewrite ?set_default_other by other_key;
      rewrite set_default_same, ?set_default_other, !replace_option_other by other_key;
      reflexivity.
  - destruct hess, hessp; rewrite ?set_default_same;
      rewrite ?set_default_other, !replace_option_other by other_key;
      destruct (dict_get o (KBytes "hessian_approximation")); reflexivity.
  - intros k NI. simpl in NI.
    assert (forall s, In s ["disp"; "print_level"; "maxiter"; "max_iter"; "tol";
                            "mu_strategy"; "hessian_approximation"] -> k <> KBytes s).
    { intros s I E. subst k. simpl in I. apply NI. intuition (subst; auto 10). }
    destruct hess, hessp;
      rewrite ?set_default_other, !replace_option_other by (apply H; simpl; auto 10);
      reflexivity.
  - intros nlp nlp' F. apply apply_options_ok. exact F.
  - intros pre k v post nlp nlp1 e E F R. rewrite E.
    apply (apply_options_rejected pre nlp nlp1 k v e post F R).
Qed.

End Options.

(** ** The theorems on concrete problems *)

Import Examples.

(** C1, on the adapter of [x0 + x1 = 1] and [(x0, x1) >= 0]. *)
Lemma constraints_stacks_values_witness :
  exists w,
    __init__ (Separate parabola JacNone) [] None None None
      (Tuple [con sum_to_one JacNone "eq"; con both JacNone "ineq"])
      1e-8%float [1; 2] [false; false] [] [] = Ok w
    /\ constraints (run w [call_objective [0.25; 0.5]%float]) [0.25; 0.5]%float
       = Ok [-0.25; 0.25; 0.5]%float.
Proof.
  eexists. split; [reflexivity|].
  refine (proj1 (constraints_stacks_values V (Separate parabola JacNone) [] None None None
                   (Tuple [con sum_to_one JacNone "eq"; con both JacNone "ineq"])
                   1e-8%float [1; 2] [false; false] [] [] _ eq_refl _
                   [call_objective [0.25; 0.5]%float] [0.25; 0.5]%float
                   [[-0.25]; [0.25; 0.5]]%float _)).
  - discriminate.
  - repeat constructor.
Defined.

(** C1 as stated fails for the empty constraint list: [np.hstack] has
    nothing to concatenate. *)
Lemma constraints_of_no_constraints_raises :
  exists w,
    __init__ (Separate parabola JacNone) [] None None None (Tuple []) 1e-8%float
      [] [] [] [] = Ok w
    /\ constraints w [0%float]
       = Raise (ValueError "need at least one array to concatenate").
Proof. eexists. split; reflexivity. Qed.



(** C3, with multiplier 3 and objective factor 0.5. *)
Lemma hessian_packs_lower_triangle_witness :
  exists w,
    __init__ (Separate parabola JacNone) [] None (Some parabola_hess) None with_hess
      1e-8%float [1] [false] [] [] = Ok w
    /\ hessian (run w []) [0.25; 0.5]%float [3%float] 0.5%float = Ok [1; 3; 0]%float.
Proof.
  eexists. split; [reflexivity|].
  destruct (hessian_packs_lower_triangle V (Separate parabola JacNone) [] None
              parabola_hess None with_hess 1e-8%float [1] [false] [] [] _ eq_refl
              [] [0.25; 0.5]%float 0.5%float [[3%float]] eq_refl)
    as [r [E _]].
  - repeat constructor.
  - repeat constructor. eexists. split; [reflexivity|]. repeat constructor.
  - transitivity (Ok r); [exact E|]. vm_compute in E. inversion E. reflexivity.
Defined.

(** C4, on one equality and one pair of inequalities. *)
Lemma constraint_bounds_by_type_witness :
  get_constraint_bounds
    (Tuple [con sum_to_one JacNone "eq"; con both JacNone "ineq"]) [0; 0]%float INF_default
  = Ok ([0; 0; 0]%float, [0; 1e19; 1e19]%float).
Proof.
  refine (proj1 (constraint_bounds_by_type V
                   (Tuple [con sum_to_one JacNone "eq"; con both JacNone "ineq"])
                   [0; 0]%float) _).
  intros c [<-|[<-|[]]]; [left|right]; reflexivity.
Defined.

(** C5, on an objective with a Hessian and a constraint without one. *)
Lemma partial_hessian_is_rejected_witness :
  exists m,
    __init__ (Separate parabola JacNone) [] None (Some parabola_hess) None
      (Dict (con sum_to_one JacNone "eq")) 1e-8%float [1] [false] [] []
    = Raise (NotImplementedError m).
Proof.
  refine (proj1 (partial_hessian_is_rejected V (Separate parabola JacNone) [] None
                   (Some parabola_hess) None (Dict (con sum_to_one JacNone "eq"))
                   1e-8%float [1] [false] [] []) _ _).
  - discriminate.
  - eexists. split; [left; reflexivity|reflexivity].
Defined.

(** C6, on three calls. *)
Lemma counters_follow_calls_witness :
  exists w,
    __init__ (Separate parabola JacNone) [] None None None (Tuple []) 1e-8%float
      [] [] [] [] = Ok w
    /\ nfev (run w [call_objective [0%float]; call_gradient [0%float] [];
                    call_evaluate_fun_with_grad [1%float]]) = 2.
Proof.
  eexists. split; [reflexivity|].
  exact (proj1 (proj2 (counters_follow_calls V (Separate parabola JacNone) [] None None
                         None (Tuple []) 1e-8%float [] [] [] [] _ eq_refl)
                  [call_objective [0%float]; call_gradient [0%float] [];
                   call_evaluate_fun_with_grad [1%float]])).
Defined.

(** C6 as stated fails for [nit]: it is whatever the latest [intermediate]
    call passed, so it can go down. *)
Lemma nit_can_decrease :
  exists w,
    __init__ (Separate parabola JacNone) [] None None None (Tuple []) 1e-8%float
      [] [] [] [] = Ok w
    /\ nit (run w [call_intermediate 5]) = 5%Z
    /\ nit (run w [call_intermediate 5; call_intermediate 3]) = 3%Z.
Proof. eexists. repeat split; reflexivity. Qed.

(** C7, after one objective call. *)
Lemma gradient_without_jac_witness :
  exists w,
    __init__ (Separate parabola JacNone) [] None None None (Tuple []) 1e-8%float
      [] [] [] [] = Ok w
    /\ nfev (fst (gradient (run w [call_objective [0%float]]) [0%float] [])) = 1.
Proof.
  eexists. split; [reflexivity|].
  rewrite (proj2 (proj2 (gradient_without_jac V parabola [] None None None (Tuple [])
                           1e-8%float [] [] [] [] _ eq_refl
                           [call_objective [0%float]] [0%float] []))).
  reflexivity.
Defined.

(** C7 as stated fails for the count: the forward difference evaluates the
    objective at two points here, and [nfev] stays at zero. *)
Lemma gradient_evaluations_are_not_counted :
  exists w,
    __init__ (Separate parabola JacNone) [] None None None (Tuple []) 1e-8%float
      [] [] [] [] = Ok w
    /\ snd (gradient w [0%float] [])
       = forward_difference [0%float] (fun x' _ => Ok (A0 (parabola x' [] [])))
           1e-8%float [] []
    /\ length (fd_points [0%float] 1e-8%float) = 2
    /\ nfev (fst (gradient w [0%float] [])) = 0
    /\ njev (fst (gradient w [0%float] [])) = 1.
Proof. eexists. repeat split; reflexivity. Qed.

(** C9, on a dict with [disp] and [maxiter]. *)
Lemma options_are_translated_witness :
  dict_get (translate_options [(KStr "disp", VInt 5); (KStr "maxiter", VInt 100)]
              None (@None (Callable V mat)) None) (KBytes "print_level")
  = Some (VInt 5).
Proof.
  refine (proj1 (options_are_translated V
                   [(KStr "disp", VInt 5); (KStr "maxiter", VInt 100)] None None None _)).
  repeat constructor; simpl; intuition discriminate.
Defined.

(** C9 as stated fails twice: [disp] is not renamed when [print_level] is
    given too, and a missing [tol] takes the driver's [tol] argument. *)
Lemma options_not_always_renamed_or_defaulted :
  dict_get (translate_options [(KStr "disp", VInt 5); (KStr "print_level", VInt 3)]
              None (@None (Callable V mat)) None) (KBytes "disp")
  = Some (VInt 5)
  /\ dict_get (translate_options [] (Some 0.5%float) (@None (Callable V mat)) None)
       (KBytes "tol")
     = Some (VFloat 0.5%float).
Proof. split; reflexivity. Qed.

(** C10, on a single constraint with ['jac'] set to [False]. *)
Lemma jac_false_fails_at_construction_witness :
  minimize_ipopt (Separate parabola JacNone) (Array [0; 0]%float) [] None None None None
    None (Dict (con sum_to_one JacFalse "eq")) None None None
  = (native_trace_to_adapter, Raise (NotImplementedError msg_jac)).
Proof.
  exact (proj1 (proj2 (proj2 (proj2 (proj2 (jac_false_fails_at_construction V
                                             (con sum_to_one JacFalse "eq") sum_to_one
                                             eq_refl)))))
           (Separate parabola JacNone) (Array [0; 0]%float) [] None None None None
           None None (or_introl eq_refl) eq_refl).
Defined.

(** * Further properties of the module *)

Section More.
Variable Val : Type.
Context {scipy : SciPy Val}.
Context {minimizer : Minimizer Val} {cyipopt : Cyipopt Val} {formatting : Formatting}.

(** *** The finite-difference Jacobians share one variable *)

Lemma traverse_nth_error {A B} (f : A -> result B) : forall l bs i a b,
  traverse f l = Ok bs -> nth_error l i = Some a -> f a = Ok b -> nth_error bs i = Some b.
Proof.
  induction l as [|a0 l IH]; intros bs i a b T N E; [destruct i; discriminate|].
  simpl in T. destruct (f a0) as [b0|e] eqn:E0; simpl in T; [|discriminate].
  destruct (traverse f l) as [bs'|e] eqn:T'; simpl in T; [|discriminate].
  inversion T; subst. destruct i as [|i]; simpl in *.
  - inversion N; subst. congruence.
  - apply (IH bs' i a b eq_refl N E).
Qed.

(** X1.  For every constraint that gives no Jacobian, the adapter stores the
    finite-difference lambda, and calling it differentiates the function of
    the last constraint in the list, whichever constraint it was stored
    for. *)
Theorem finite_difference_uses_last_constraint fun_ args kwargs hess hessp cs eps dims
    sp row col w pre c_last :
  __init__ fun_ args kwargs hess hessp cs eps dims sp row col = Ok w ->
  as_tuple cs = pre ++ [c_last] ->
  forall i c f,
    nth_error (as_tuple cs) i = Some c ->
    con_fun_jac c = Separate f JacNone ->
    exists jac,
      nth_error (_constraint_jacs w) i = Some jac
      /\ forall x,
           call_con_jac w jac x (con_args c) (con_kwargs c)
           = fmap Dense
               (approx_fprime x (fun x' a => fmap A1 (con_value_fun c_last x' a []))
                  eps (con_args c) (con_kwargs c)).
Proof.
  intros H E i c f N F. apply init_inv in H.
  destruct H as [_ [_ [fj [jacs [_ [TJ W]]]]]].
  assert (S : con_jac_stored c = Ok (@Jac_lambda Val)).
  { unfold con_jac_stored, resolve_constraint. rewrite F. reflexivity. }
  exists (@Jac_lambda Val). split.
  - subst w. simpl. apply (traverse_nth_error _ _ _ _ _ _ TJ N S).
  - intro x. subst w. simpl. rewrite E, last_map_snoc. reflexivity.
Qed.

(** *** Bounds *)

(** X2.  The two arrays that [get_bounds] returns pair up again to the sequence
    it was given, and each has one entry per variable. *)
Theorem get_bounds_round_trip (bs : list (bound * bound)) :
  exists lb ub,
    get_bounds (Some bs) = (Some lb, Some ub)
    /\ combine lb ub = bs /\ length lb = length bs /\ length ub = length bs.
Proof.
  exists (map fst bs), (map snd bs). repeat split; rewrite ?length_map; try reflexivity.
  induction bs as [|[l u] bs IH]; simpl; [reflexivity|]. rewrite IH. reflexivity.
Qed.

Lemma bounds_loop_lengths x0 INF (cs : list (constraint Val)) : forall cl cu cl' cu',
  foldM (bounds_step x0 INF) cs (cl, cu) = Ok (cl', cu') ->
  length cl' = length cl + sum (map (fun c => con_dimension c x0) cs)
  /\ length cu' = length cu + sum (map (fun c => con_dimension c x0) cs).
Proof.
  induction cs as [|c cs IH]; intros cl cu cl' cu' F; simpl in F.
  - inversion F; subst. simpl. lia.
  - unfold bounds_step at 1 in F.
    destruct (String.eqb (con_type c) "eq");
      [|destruct (String.eqb (con_type c) "ineq"); [|discriminate]];
      simpl in F; apply IH in F; destruct F as [L1 L2];
      rewrite L1, L2, !length_app; unfold zeros, scale, ones;
      rewrite ?length_map, !repeat_length; simpl; lia.
Qed.

(** X3.  When the bound assembly returns, both bound arrays have as many entries
    as the dimension probe counts in total: the constraint count given to
    the solver is the sum of the constraint dimensions given to the
    adapter. *)
Theorem bounds_length_is_total_dimension (cs : constraints_arg Val) x0 INF cl cu :
  get_constraint_bounds cs x0 INF = Ok (cl, cu) ->
  length cl = sum (get_constraint_dimensions cs x0) /\ length cu = length cl.
Proof.
  intro F. apply bounds_loop_lengths in F. destruct F as [L1 L2].
  unfold get_constraint_dimensions. simpl in *. lia.
Qed.


(** *** The structure of constraints without Jacobians *)

Lemma shift_rows_from off n : forall r k,
  map (Nat.add off) (flat_map (fun i => repeat i n) (seq k r))
  = flat_map (fun i => repeat i n) (seq (off + k) r).
Proof.
  induction r as [|r IH]; intro k; simpl; [reflexivity|].
  rewrite map_app, IH, Nat.add_succ_r, map_repeat. reflexivity.
Qed.

Lemma shift_rows off n r :
  map (Nat.add off) (flat_map (fun i => repeat i n) (seq 0 r))
  = flat_map (fun i => repeat i n) (seq off r).
Proof. rewrite shift_rows_from, Nat.add_0_r. reflexivity. Qed.

Lemma vstack_from_ones n : forall (ds : list nat) off,
  vstack_from off n (map (fun d => coo_ones d n) ds)
  = Ok (flat_map (fun i => repeat i n) (seq off (sum ds)),
        concat (repeat (seq 0 n) (sum ds)),
        ones (sum ds * n),
        off + sum ds).
Proof.
  induction ds as [|d ds IH]; intro off; simpl.
  - rewrite Nat.add_0_r. reflexivity.
  - rewrite Nat.eqb_refl, IH. simpl.
    rewrite shift_rows, seq_app, flat_map_app, repeat_app, concat_app.
    unfold ones. rewrite Nat.mul_add_distr_r, repeat_app, Nat.add_assoc. reflexivity.
Qed.

Lemma vstack_ones n (ds : list nat) :
  ds <> [] ->
  vstack (map (fun d => coo_ones d n) ds)
  = Ok {| coo_shape := (sum ds, n);
          coo_row := flat_map (fun i => repeat i n) (seq 0 (sum ds));
          coo_col := concat (repeat (seq 0 n) (sum ds));
          coo_data := ones (sum ds * n) |}.
Proof.
  destruct ds as [|d ds]; [congruence|]. intros _.
  pose proof (vstack_from_ones n (d :: ds) 0) as V.
  unfold vstack. cbn [map] in *.
  change (snd (coo_shape (coo_ones d n))) with n.
  rewrite V. reflexivity.
Qed.

Lemma probe_without_jacobian x0 (c : constraint Val) :
  no_jacobian c ->
  probe_constraint x0 c = Ok (coo_ones (con_dimension c x0) (length x0), false).
Proof.
  intros [f [jac [E J]]]. unfold probe_constraint, con_dimension. rewrite E.
  destruct J as [->|[->| ->]]; reflexivity.
Qed.

(** X4.  When no constraint of a non-empty list supplies a Jacobian, the
    structure probe flags every constraint dense and returns the full
    structure of the stacked Jacobian: every position of an array with one
    row per constraint value and one column per variable, row by row. *)
Theorem structure_without_jacobians (cs : constraints_arg Val) x0 :
  as_tuple cs <> [] ->
  (forall c, In c (as_tuple cs) -> no_jacobian c) ->
  let m := sum (get_constraint_dimensions cs x0) in
  let n := length x0 in
  _get_sparse_jacobian_structure cs x0
  = Ok (repeat false (length (as_tuple cs)),
        flat_map (fun i => repeat i n) (seq 0 m),
        concat (repeat (seq 0 n) m)).
Proof.
  intros NE NJ m n. unfold _get_sparse_jacobian_structure.
  destruct (as_tuple cs) as [|c0 l] eqn:E; [congruence|]. rewrite <- E in *.
  assert (T : traverse (probe_constraint x0) (as_tuple cs)
              = Ok (map (fun c => (coo_ones (con_dimension c x0) n, false)) (as_tuple cs))).
  { apply traverse_ok. intros c I. apply probe_without_jacobian, NJ, I. }
  rewrite T. simpl bind. rewrite !map_map. simpl.
  assert (B : map (fun c : constraint Val => coo_ones (con_dimension c x0) n) (as_tuple cs)
              = map (fun d => coo_ones d n) (get_constraint_dimensions cs x0)).
  { unfold get_constraint_dimensions. rewrite map_map. reflexivity. }
  rewrite B. rewrite vstack_ones.
  2:{ unfold get_constraint_dimensions. rewrite E. discriminate. }
  simpl. subst m. f_equal. f_equal. f_equal.
  clear. induction (as_tuple cs); simpl; [reflexivity|]. f_equal. assumption.
Qed.

(** *** The adapter on its own *)

(** X5.  An adapter constructed without the sparsity flags of the structure probe
    (the default of [sparse_jacs]) cannot evaluate the Jacobian of a
    non-empty constraint list: [jacobian] raises [IndexError]. *)
Theorem jacobian_without_flags_raises fun_ args kwargs hess hessp cs eps dims row col w x :
  __init__ fun_ args kwargs hess hessp cs eps dims [] row col = Ok w ->
  as_tuple cs <> [] ->
  jacobian w x = Raise (IndexError "tuple index out of range").
Proof.
  intros H NE. apply init_inv in H.
  destruct H as [_ [_ [fj [jacs [_ [TJ W]]]]]].
  subst w. unfold jacobian, enumerate. simpl.
  destruct (as_tuple cs) as [|c l]; [congruence|].
  simpl in TJ. destruct (con_jac_stored c) as [j|e]; simpl in TJ; [|discriminate].
  destruct (traverse (@con_jac_stored Val scipy) l) as [js|e]; simpl in TJ; [|discriminate].
  inversion TJ; subst. reflexivity.
Qed.

(** X6.  A Hessian-vector product is refused before anything else is looked at:
    construction raises [NotImplementedError] with the message about
    [hessp], whatever the other arguments are; on the native path the driver
    raises it once the builders have run. *)
Theorem hessp_is_refused hp :
  (forall fun_ args kwargs hess cs eps dims sp row col,
     __init__ fun_ args kwargs hess (Some hp) cs eps dims sp row col
     = Raise (NotImplementedError msg_hessp))
  /\ (forall fun_ x0 args kwargs hess bounds cs tol callback options clcu s,
        get_constraint_bounds cs (atleast_1d x0) INF_default = Ok clcu ->
        _get_sparse_jacobian_structure cs (atleast_1d x0) = Ok s ->
        minimize_ipopt fun_ x0 args kwargs None hess (Some hp) bounds cs tol callback options
        = (native_trace_to_adapter, Raise (NotImplementedError msg_hessp))).
Proof.
  split.
  - reflexivity.
  - intros. eapply native_fails_at_adapter; eauto.
Qed.


(** *** Option names as bytes *)

Lemma convert_key_get d k0 k :
  NoDup (keys d) ->
  dict_get (convert_key d k0) k
  = match k0 with
    | KBytes _ => dict_get d k
    | KStr s0 =>
        if key_eqb k (KStr s0) then None
        else if key_eqb k (KBytes s0)
             then match dict_get d (KStr s0) with
                  | Some v => Some v
                  | None => dict_get d (KBytes s0)
                  end
             else dict_get d k
    end.
Proof.
  intro ND. unfold convert_key. destruct k0 as [s0|s0]; [|reflexivity].
  destruct (key_eqb k (KStr s0)) eqn:E1.
  - apply key_eqb_eq in E1. subst k.
    destruct (dict_get d (KStr s0)) as [v|] eqn:G; [|exact G].
    apply dict_get_pop_same, NoDup_set, ND.
  - assert (N1 : k <> KStr s0) by (intro; subst; rewrite key_eqb_refl in E1; discriminate).
    destruct (key_eqb k (KBytes s0)) eqn:E2.
    + apply key_eqb_eq in E2. subst k.
      destruct (dict_get d (KStr s0)) as [v|] eqn:G; [|reflexivity].
      rewrite dict_get_pop_other by exact N1. apply dict_get_set_same.
    + assert (N2 : k <> KBytes s0)
        by (intro; subst; rewrite key_eqb_refl in E2; discriminate).
      destruct (dict_get d (KStr s0)) as [v|] eqn:G; [|reflexivity].
      rewrite dict_get_pop_other, dict_get_set_other by assumption. reflexivity.
Qed.

Lemma fold_convert_get : forall ks d,
  NoDup (keys d) ->
  forall s,
    dict_get (fold_left convert_key ks d) (KBytes s)
    = (if existsb (key_eqb (KStr s)) ks
       then match dict_get d (KStr s) with
            | Some v => Some v
            | None => dict_get d (KBytes s)
            end
       else dict_get d (KBytes s))
    /\ dict_get (fold_left convert_key ks d) (KStr s)
       = (if existsb (key_eqb (KStr s)) ks then None else dict_get d (KStr s)).
Proof.
  induction ks as [|k0 ks IH]; intros d ND s; simpl; [auto|].
  destruct (IH (convert_key d k0) (NoDup_convert_key d k0 ND) s) as [B T].
  rewrite B, T, !convert_key_get by exact ND.
  destruct k0 as [s0|s0]; simpl.
  - destruct (String.eqb s s0) eqn:E.
    + apply String.eqb_eq in E. subst s0. simpl.
      destruct (existsb (key_eqb (KStr s)) ks); auto.
    + simpl. auto.
  - auto.
Qed.

Lemma existsb_keys_get d k :
  existsb (key_eqb k) (keys d) = match dict_get d k with Some _ => true | None => false end.
Proof.
  induction d as [|[k' v] d IH]; simpl; [reflexivity|].
  destruct (key_eqb k' k) eqn:E.
  - apply key_eqb_eq in E. subst. rewrite key_eqb_refl. reflexivity.
  - rewrite IH. destruct (key_eqb k k') eqn:E'; [|reflexivity].
    apply key_eqb_eq in E'. subst. rewrite key_eqb_refl in E. discriminate.
Qed.

(** X7.  After [convert_to_bytes] no text name is left.  The value under a bytes
    name is the one that was under its text spelling, and when there was
    none the one that was under the bytes name itself: a text spelling
    overrides a bytes spelling of the same name. *)
Theorem convert_to_bytes_lookup (d : dict) :
  NoDup (keys d) ->
  (forall s,
     dict_get (convert_to_bytes d) (KBytes s)
     = match dict_get d (KStr s) with
       | Some v => Some v
       | None => dict_get d (KBytes s)
       end)
  /\ (forall s, dict_get (convert_to_bytes d) (KStr s) = None)
  /\ forallb is_bytes (keys (convert_to_bytes d)) = true.
Proof.
  intro ND.
  assert (L : forall s,
     dict_get (convert_to_bytes d) (KBytes s)
     = match dict_get d (KStr s) with
       | Some v => Some v
       | None => dict_get d (KBytes s)
       end
     /\ dict_get (convert_to_bytes d) (KStr s) = None).
  { intro s. unfold convert_to_bytes.
    destruct (fold_convert_get (map fst d) d ND s) as [B T].
    rewrite B, T. change (map fst d) with (keys d). rewrite existsb_keys_get.
    destruct (dict_get d (KStr s)); auto. }
  split; [intro s; apply L|]. split; [intro s; apply L|].
  apply forallb_forall. intros [s|s] I; [|reflexivity].
  exfalso. apply (proj1 (dict_get_None _ _) (proj2 (L s))). exact I.
Qed.

Lemma dict_set_fresh d k v : ~ In k (keys d) -> dict_set d k v = d ++ [(k, v)].
Proof.
  induction d as [|[k' v'] d IH]; simpl; intro N; [reflexivity|].
  rewrite key_eqb_neq by tauto. rewrite IH by tauto. reflexivity.
Qed.

Lemma convert_text_loop : forall todo done,
  forallb (fun k => negb (is_bytes k)) (keys todo) = true ->
  forallb is_bytes (keys done) = true ->
  NoDup (keys done ++ map to_bytes (keys todo)) ->
  fold_left convert_key (keys todo) (todo ++ done)
  = done ++ map (fun kv => (to_bytes (fst kv), snd kv)) todo.
Proof.
  induction todo as [|[k v] todo IH]; intros done T D ND; simpl.
  - rewrite app_nil_r. reflexivity.
  - simpl in T. apply andb_true_iff in T. destruct T as [Tk T].
    destruct k as [s|s]; [|discriminate]. simpl in ND.
    unfold convert_key at 2. simpl dict_get. rewrite String.eqb_refl.
    assert (F : ~ In (KBytes s) (keys ((KStr s, v) :: todo ++ done))).
    { simpl. intros [H|H]; [discriminate|].
      unfold keys in H. rewrite map_app, in_app_iff in H. destruct H as [H|H].
      - rewrite forallb_forall in T. apply T in H. discriminate.
      - apply NoDup_remove_2 in ND. apply ND. rewrite in_app_iff. left. exact H. }
    rewrite (dict_set_fresh _ _ _ F). simpl dict_pop. rewrite String.eqb_refl.
    rewrite <- app_assoc. rewrite IH.
    + rewrite <- app_assoc. reflexivity.
    + exact T.
    + unfold keys. rewrite map_app, forallb_app. fold (keys done). rewrite D. reflexivity.
    + unfold keys in *. rewrite map_app, <- app_assoc. exact ND.
Qed.

Lemma NoDup_to_bytes_text ks :
  forallb (fun k => negb (is_bytes k)) ks = true -> NoDup ks -> NoDup (map to_bytes ks).
Proof.
  induction ks as [|k ks IH]; intros T ND; simpl; [constructor|].
  simpl in T. apply andb_true_iff in T. destruct T as [Tk T].
  inversion ND as [|? ? NI ND']; subst. constructor; [|apply IH; assumption].
  intro I. apply in_map_iff in I. destruct I as [k' [E I]]. apply NI.
  rewrite forallb_forall in T. pose proof (T k' I) as Tk'.
  destruct k as [s|s], k' as [s'|s']; try discriminate. simpl in E. congruence.
Qed.

Lemma fold_convert_bytes : forall ks d,
  forallb is_bytes ks = true -> fold_left convert_key ks d = d.
Proof.
  induction ks as [|k ks IH]; intros d B; simpl; [reflexivity|].
  simpl in B. apply andb_true_iff in B. destruct B as [Bk B].
  destruct k as [s|s]; [discriminate|]. simpl. apply IH. exact B.
Qed.

(** X8.  [convert_to_bytes] leaves a dict whose names are all bytes as it is, and
    turns a dict whose names are all text into the same items in the same
    order, each under the bytes spelling of its name. *)
Theorem convert_to_bytes_keeps_order (d : dict) :
  (forallb is_bytes (keys d) = true -> convert_to_bytes d = d)
  /\ (forallb (fun k => negb (is_bytes k)) (keys d) = true -> NoDup (keys d) ->
      convert_to_bytes d = map (fun kv => (to_bytes (fst kv), snd kv)) d).
Proof.
  split.
  - intro B. apply fold_convert_bytes. exact B.
  - intros T ND. unfold convert_to_bytes.
    pose proof (convert_text_loop d [] T eq_refl) as L.
    rewrite app_nil_r in L. apply L. simpl. apply NoDup_to_bytes_text; assumption.
Qed.


(** *** The native path to its end *)

(** X9.  When every step of the native path goes through, the driver calls the
    four builders, the adapter, the solver handle with the number of
    variables and the total constraint dimension, every translated option in
    order, and [solve], in this order.  The result reports success exactly
    when the status is zero, carries the status, the objective value and the
    counters of the adapter as [solve] left it, and gives [x] back as a
    scalar when the guess was one. *)
Theorem native_path_result fun_ x0 args kwargs hess bounds cs tol callback options
    cl cu sp row col problem nlp nlp' x info problem' :
  let _x0 := atleast_1d x0 in
  let opts :=
    translate_options (match options with Some o => o | None => [] end) tol hess
      (@None (Hessp Val)) in
  get_constraint_bounds cs _x0 INF_default = Ok (cl, cu) ->
  _get_sparse_jacobian_structure cs _x0 = Ok (sp, row, col) ->
  __init__ fun_ args kwargs hess None cs 1e-8%float (get_constraint_dimensions cs _x0)
    sp row col = Ok problem ->
  Problem (length _x0) (length cl) problem (fst (get_bounds bounds))
    (snd (get_bounds bounds)) cl cu = Ok nlp ->
  foldM (fun n kv => add_option n (fst kv) (snd kv)) opts nlp = Ok nlp' ->
  solve nlp' problem _x0 = Ok (x, info, problem') ->
  match x0 with Scalar _ => x <> [] | Array _ => True end ->
  exists res,
    minimize_ipopt fun_ x0 args kwargs None hess None bounds cs tol callback options
    = (native_trace_to_adapter
       ++ Call_Problem (length _x0) (sum (get_constraint_dimensions cs _x0))
          :: option_events opts ++ [Call_solve],
       Ok (Solved res))
    /\ res_success res = Z.eqb (status info) 0
    /\ res_x res = match x0 with Scalar _ => Scalar (hd 0%float x) | Array _ => Array x end
    /\ res_status res = status info
    /\ res_message res = status_msg info
    /\ res_fun res = obj_val info
    /\ res_nfev res = nfev problem'
    /\ res_njev res = njev problem'
    /\ res_nit res = nit problem'.
Proof.
  intros _x0 opts B S I P O SV NE.
  destruct (bounds_length_is_total_dimension cs _x0 INF_default cl cu B) as [Lcl _].
  exists {| res_x := match x0 with Scalar _ => Scalar (hd 0%float x) | Array _ => Array x end;
            res_success := Z.eqb (status info) 0;
            res_status := status info;
            res_message := status_msg info;
            res_fun := obj_val info;
            res_info := info;
            res_nfev := nfev problem';
            res_njev := njev problem';
            res_nit := nit problem' |}.
  split; [|repeat split].
  unfold minimize_ipopt. simpl. fold _x0.
  rewrite B. simpl. rewrite S. simpl. rewrite I.
  destruct (get_bounds bounds) as [lb ub]. simpl in P. simpl.
  rewrite P. simpl. fold opts.
  rewrite (apply_options_ok Val opts nlp nlp' O). simpl.
  rewrite SV. simpl. rewrite Lcl.
  destruct x0 as [s0|v0]; simpl.
  - destruct x as [|a x]; [congruence|]. reflexivity.
  - reflexivity.
Qed.


(** *** What the callbacks hand on *)

(** X10.  For an objective that returns values only, [objective(x)] returns the
    caller's function at [x] with the stored extra arguments (an absent
    [kwargs] is the empty dict), whatever was called before; with a gradient
    callable, [gradient(x)] returns that callable's value in the same way. *)
Theorem objective_forwards f jac args kwargs hess hessp cs eps dims sp row col w :
  __init__ (Separate f jac) args kwargs hess hessp cs eps dims sp row col = Ok w ->
  forall calls x,
    snd (objective (run w calls) x) = Ok (f x args (kwargs_or_empty kwargs))
    /\ forall j kw, jac = JacCallable j ->
         snd (gradient (run w calls) x kw) = Ok (A1 (j x args (kwargs_or_empty kwargs))).
Proof.
  intro H. apply init_inv in H.
  destruct H as [_ [_ [fj [jacs [RO [_ W]]]]]].
  intros calls x. rewrite run_counters. subst w. simpl.
  destruct jac as [| |j|t]; simpl in RO; inversion RO; subst; clear RO; simpl.
  - split; [reflexivity|]. intros; discriminate.
  - split; [reflexivity|]. intros j' kw E. inversion E; subst. reflexivity.
Qed.

(** X11.  For constraints that return values only, the stacked constraint vector
    at the initial point has exactly as many entries as the dimension probe
    counts, and so as many as each bound array. *)
Theorem constraints_match_dimensions fun_ args kwargs hess hessp cs eps dims sp row col w x0
    INF cl cu :
  __init__ fun_ args kwargs hess hessp cs eps dims sp row col = Ok w ->
  as_tuple cs <> [] ->
  (forall c, In c (as_tuple cs) -> exists f jac, con_fun_jac c = Separate f jac) ->
  get_constraint_bounds cs x0 INF = Ok (cl, cu) ->
  exists r,
    constraints w x0 = Ok r
    /\ length r = sum (get_constraint_dimensions cs x0)
    /\ length r = length cl /\ length r = length cu.
Proof.
  intros H NE SEP B. apply init_inv in H.
  destruct H as [_ [_ [fj [jacs [_ [_ W]]]]]].
  destruct (bounds_length_is_total_dimension cs x0 INF cl cu B) as [Lcl Lcu].
  set (value := fun c : constraint Val =>
                  match con_fun_jac c with
                  | Separate f _ => f x0 (con_args c) (con_kwargs c)
                  | Combined fg => fst (fg x0 (con_args c) (con_kwargs c))
                  end).
  exists (concat (map value (as_tuple cs))).
  assert (L : length (concat (map value (as_tuple cs)))
              = sum (get_constraint_dimensions cs x0)).
  { rewrite length_concat_sum, map_map. unfold get_constraint_dimensions.
    f_equal. apply map_ext. intro c. unfold value, con_dimension.
    destruct (con_fun_jac c); reflexivity. }
  split; [|lia].
  subst w. unfold constraints. simpl.
  rewrite zip3_map, traverse_map. simpl.
  rewrite (traverse_ok _ value).
  - simpl. destruct (as_tuple cs); [congruence|reflexivity].
  - intros c I. destruct (SEP c I) as [f [jac E]].
    unfold con_value_fun, value. rewrite E. reflexivity.
Qed.

End More.

(** ** The further properties on concrete problems *)

Import Examples.

(** The Jacobian stored for the first constraint differentiates the second
    constraint's function. *)
Lemma finite_difference_uses_last_constraint_witness :
  exists w,
    __init__ (Separate parabola JacNone) [] None None None two_without_jac 1e-8%float
      [1; 2] [false; false] [] [] = Ok w
    /\ exists jac,
         nth_error (_constraint_jacs w) 0 = Some jac
         /\ forall x,
              call_con_jac w jac x [] []
              = fmap Dense
                  (approx_fprime x
                     (fun x' a => fmap A1 (con_value_fun (con both JacNone "ineq") x' a []))
                     1e-8%float [] []).
Proof.
  eexists. split; [reflexivity|].
  exact (finite_difference_uses_last_constraint V (Separate parabola JacNone) [] None None
           None two_without_jac 1e-8%float [1; 2] [false; false] [] [] _
           [con sum_to_one JacNone "eq"] (con both JacNone "ineq") eq_refl eq_refl
           0 (con sum_to_one JacNone "eq") sum_to_one eq_refl eq_refl).
Defined.

Lemma bounds_length_is_total_dimension_witness :
  length [0; 0; 0]%float = sum (get_constraint_dimensions two_without_jac [0; 0]%float)
  /\ length [0; 1e19; 1e19]%float = length [0; 0; 0]%float.
Proof.
  exact (bounds_length_is_total_dimension V two_without_jac [0; 0]%float INF_default
           [0; 0; 0]%float [0; 1e19; 1e19]%float eq_refl).
Defined.

Lemma structure_without_jacobians_witness :
  _get_sparse_jacobian_structure two_without_jac [0; 0]%float
  = Ok ([false; false], [0; 0; 1; 1; 2; 2], [0; 1; 0; 1; 0; 1]).
Proof.
  refine (structure_without_jacobians V two_without_jac [0; 0]%float _ _).
  - discriminate.
  - intros c [<-|[<-|[]]]; eexists _, _; split; [reflexivity|auto| reflexivity|auto].
Defined.

Lemma jacobian_without_flags_raises_witness :
  exists w,
    __init__ (Separate parabola JacNone) [] None None None two_without_jac 1e-8%float
      [] [] [] [] = Ok w
    /\ jacobian w [0; 0]%float = Raise (IndexError "tuple index out of range").
Proof.
  eexists. split; [reflexivity|].
  refine (jacobian_without_flags_raises V (Separate parabola JacNone) [] None None None
            two_without_jac 1e-8%float [] [] [] _ [0; 0]%float eq_refl _).
  discriminate.
Defined.

Lemma hessp_is_refused_witness :
  minimize_ipopt (Separate parabola JacNone) (Array [0; 0]%float) [] None None None
    (Some some_hessp) None two_without_jac None None None
  = (native_trace_to_adapter, Raise (NotImplementedError msg_hessp)).
Proof.
  exact (proj2 (hessp_is_refused V some_hessp) (Separate parabola JacNone)
           (Array [0; 0]%float) [] None None None two_without_jac None None None
           _ _ eq_refl eq_refl).
Defined.

Lemma convert_to_bytes_lookup_witness :
  dict_get (convert_to_bytes mixed_options) (KBytes "tol") = Some (VFloat 0.25%float).
Proof.
  refine (proj1 (convert_to_bytes_lookup mixed_options _) "tol").
  repeat constructor; simpl; intuition discriminate.
Defined.

Lemma convert_to_bytes_keeps_order_witness :
  convert_to_bytes [(KStr "tol", VFloat 0.25%float); (KStr "max_iter", VInt 50)]
  = [(KBytes "tol", VFloat 0.25%float); (KBytes "max_iter", VInt 50)].
Proof.
  refine (proj2 (convert_to_bytes_keeps_order
                   [(KStr "tol", VFloat 0.25%float); (KStr "max_iter", VInt 50)])
            eq_refl _).
  repeat constructor; simpl; intuition discriminate.
Defined.

(** The driver on the unconstrained parabola with a scalar guess. *)
Lemma native_path_result_witness :
  exists res,
    minimize_ipopt (Separate parabola JacNone) (Scalar 0%float) [] None None None None
      None (Tuple []) None None (Some [(KStr "disp", VInt 5)])
    = (native_trace_to_adapter
       ++ Call_Problem 1 0
          :: [Call_add_option (KBytes "print_level") (VInt 5);
              Call_add_option (KBytes "tol") (VFloat 1e-8%float);
              Call_add_option (KBytes "mu_strategy") (VBytes "adaptive");
              Call_add_option (KBytes "hessian_approximation") (VBytes "limited-memory")]
          ++ [Call_solve],
       Ok (Solved res))
    /\ res_success res = true
    /\ res_x res = Scalar 0%float.
Proof.
  destruct (@native_path_result V scipy minimizer cyipopt formatting
              (Separate parabola JacNone) (Scalar 0%float) [] None None
              None (Tuple []) None None (Some [(KStr "disp", VInt 5)])
              [] [] [] [] [] _ ([] : dict)
              ([(KBytes "print_level", VInt 5); (KBytes "tol", VFloat 1e-8%float);
                (KBytes "mu_strategy", VBytes "adaptive");
                (KBytes "hessian_approximation", VBytes "limited-memory")] : dict)
              [0%float] (Info 0 "Optimal Solution Found" 0%float) _
              eq_refl eq_refl eq_refl eq_refl eq_refl eq_refl ltac:(discriminate))
    as [res [E [S [X _]]]].
  exists res. repeat split; assumption.
Defined.

Lemma objective_forwards_witness :
  exists w,
    __init__ (Separate parabola JacNone) [] None None None (Tuple []) 1e-8%float
      [] [] [] [] = Ok w
    /\ snd (objective (run w [call_intermediate 2]) [1%float]) = Ok 4%float.
Proof.
  eexists. split; [reflexivity|].
  exact (proj1 (objective_forwards V parabola JacNone [] None None None (Tuple [])
                  1e-8%float [] [] [] [] _ eq_refl [call_intermediate 2] [1%float])).
Defined.

Lemma constraints_match_dimensions_witness :
  exists w,
    __init__ (Separate parabola JacNone) [] None None None two_without_jac 1e-8%float
      [1; 2] [false; false] [] [] = Ok w
    /\ exists r,
         constraints w [0; 0]%float = Ok r
         /\ length r = sum (get_constraint_dimensions two_without_jac [0; 0]%float)
         /\ length r = 3 /\ length r = 3.
Proof.
  eexists. split; [reflexivity|].
  refine (constraints_match_dimensions V (Separate parabola JacNone) [] None None None
            two_without_jac 1e-8%float [1; 2] [false; false] [] [] _ [0; 0]%float
            INF_default [0; 0; 0]%float [0; 1e19; 1e19]%float eq_refl _ _ eq_refl).
  - discriminate.
  - intros c [<-|[<-|[]]]; eexists _, _; reflexivity.
Defined.
